(** * Protein engineering labs: the job-completion tracker and the inference script

    Shallow embedding of the two pieces of notebook logic that are not plain
    SDK invocation:

    - Lab 1, [wait_for_jobs_completion]: the fixed-interval polling loop over
      AWS Batch job identifiers;
    - Lab 2, [input_fn] / [predict_fn] of [inference-embeddings.py]: the
      dispatch on the request's [mode].

    The cloud services are external collaborators.  They are modelled as an
    explicit world that the code queries and that time changes; everything the
    code does to the outside (printing, querying, sleeping, running the model)
    is recorded in a trace of events. *)

From Stdlib Require Import Ascii.
From stdpp Require Import gmap strings list pretty.

Open Scope string_scope.
Open Scope list_scope.
Open Scope nat_scope.

(** The line-feed character of Python's ["\n"]. *)
Definition nl : string := String "010"%char EmptyString.

(** * Lab 1: waiting for the Batch jobs *)
Module Lab1.

(** A job description as [describe_jobs] returns it: a dictionary from which
    the tracker reads the keys [jobName], [status] and [statusReason]. *)
Abbreviation job := (gmap string string).

(** Python exceptions that can travel through the tracker.  [ClientError]
    stands for whatever the SDK raises on a failed call. *)
Inductive exn : Type :=
| KeyError (key : string)
| IndexError
| ValueError (msg : string)
| ClientError (msg : string).

(** What the tracker does to the outside world, in order. *)
Inductive event : Type :=
| EvPrint (line : string)
| EvDescribe (job_id : string) (answer : exn + list job)
| EvSleep (seconds : Z).

(** Outcome of a computation: a value, a raised exception, or a loop that
    was still running when the fuel ran out. *)
Inductive result (A : Type) : Type :=
| Ok (a : A)
| Raise (e : exn)
| OutOfFuel.
Arguments Ok {A} a.
Arguments Raise {A} e.
Arguments OutOfFuel {A}.

Section Monad.

Context {W : Type}.

(** Program state: the external world, the local variable
    [completed_jobs], the trace of events so far, and a ghost counter of
    the passes of the [while] loop that were started. *)
Record state : Type := State {
  world : W;
  completed_jobs : gset string;
  out : list event;
  passes : nat
}.

Definition M (A : Type) : Type := state → result A * state.

Definition ret {A} (a : A) : M A := λ s, (Ok a, s).

Definition bind {A B} (m : M A) (k : A → M B) : M B := λ s,
  match m s with
  | (Ok a, s') => k a s'
  | (Raise e, s') => (Raise e, s')
  | (OutOfFuel, s') => (OutOfFuel, s')
  end.

Definition raise {A} (e : exn) : M A := λ s, (Raise e, s).

Definition emit (ev : event) : M unit := λ s,
  (Ok (), State (world s) (completed_jobs s) (out s ++ [ev]) (passes s)).

(** [print(line)] *)
Definition print (line : string) : M unit := emit (EvPrint line).

(** The current value of [completed_jobs]. *)
Definition get_completed : M (gset string) := λ s, (Ok (completed_jobs s), s).

(** [completed_jobs = set()] *)
Definition reset_completed : M unit := λ s,
  (Ok (), State (world s) ∅ (out s) (passes s)).

(** [completed_jobs.add(job_id)] *)
Definition add_completed (job_id : string) : M unit := λ s,
  (Ok (), State (world s) ({[job_id]} ∪ completed_jobs s) (out s) (passes s)).

(** Ghost: one more pass of the [while] loop begins. *)
Definition begin_pass : M unit := λ s,
  (Ok (), State (world s) (completed_jobs s) (out s) (S (passes s))).

(** [jobs[0]] *)
Definition first_job (jobs : list job) : M job :=
  match jobs with
  | j :: _ => ret j
  | [] => raise IndexError
  end.

(** [d[key]] *)
Definition getitem (d : job) (key : string) : M string :=
  match d !! key with
  | Some v => ret v
  | None => raise (KeyError key)
  end.

End Monad.

Arguments state W : clear implicits.
Arguments M W A : clear implicits.

Notation "'let*' x ':=' m 'in' k" := (bind m (λ x, k))
  (at level 10, x name, m at level 100, k at level 200).
Notation "m >> k" := (bind m (λ _, k))
  (at level 100, k at level 200, right associativity).

(** [for x in l: body(x)] *)
Fixpoint for_each {W A} (l : list A) (body : A → M W unit) : M W unit :=
  match l with
  | [] => ret ()
  | x :: l' => body x >> for_each l' body
  end.

(** [status in ['SUCCEEDED', 'FAILED']] *)
Definition is_terminal (status : string) : bool :=
  bool_decide (status ∈ ["SUCCEEDED"; "FAILED"]).

(** [len(completed_jobs) < len(job_ids)] *)
Definition pending {W} (job_ids : list string) (s : state W) : bool :=
  bool_decide (size (completed_jobs s) < length job_ids).

Section Tracker.

(** The external world: [batch_client w id] is the answer of
    [batch_client.describe_jobs(jobs=[id])] in world [w] (the list is the
    response's ['jobs'] entry) together with the world after the call;
    [time_passes w secs] is the world after [secs] seconds of sleep. *)
Context {W : Type}.
Variable batch_client : W → string → (exn + list job) * W.
Variable time_passes : W → Z → W.

(** [batch_client.describe_jobs(jobs=[job_id])['jobs']]: the call is
    recorded with its answer; an exception of the client is raised as it
    is. *)
Definition describe_jobs (job_id : string) : M W (list job) := λ s,
  let '(answer, w') := batch_client (world s) job_id in
  let s' := State w' (completed_jobs s)
                  (out s ++ [EvDescribe job_id answer]) (passes s) in
  match answer with
  | inl e => (Raise e, s')
  | inr jobs => (Ok jobs, s')
  end.

(** [time.sleep(seconds)]: Python refuses a negative length. *)
Definition time_sleep (seconds : Z) : M W unit := λ s,
  if bool_decide (seconds < 0)%Z
  then (Raise (ValueError "sleep length must be non-negative"), s)
  else (Ok (), State (time_passes (world s) seconds) (completed_jobs s)
                     (out s ++ [EvSleep seconds]) (passes s)).

(** The body of the [for] loop inside the [while] loop, for one
    [job_id]. *)
Definition poll_job (job_id : string) : M W unit :=
  let* seen := get_completed in
  if bool_decide (job_id ∈ seen) then ret ()
  else
    let* response := describe_jobs job_id in
    let* job := first_job response in
    let* job_name := getitem job "jobName" in
    let* status := getitem job "status" in
    if is_terminal status then
      let* seen' := get_completed in
      if bool_decide (job_id ∉ seen') then
        print ("Job " +:+ job_name +:+ " completed with status: " +:+ status) >>
        add_completed job_id >>
        if bool_decide (status = "FAILED")
           && bool_decide (is_Some (job !! "statusReason"))
        then
          let* reason := getitem job "statusReason" in
          print ("  Failure reason: " +:+ reason)
        else ret ()
      else ret ()
    else
      print ("Job " +:+ job_name +:+ " is " +:+ status).

(** The [if] that ends the body of the [while] loop. *)
Definition wait_if_pending (job_ids : list string) (check_interval : Z)
    : M W unit := λ s,
  if pending job_ids s then
    (print ("[waiting " +:+ pretty check_interval
            +:+ " seconds before next check...]") >>
     time_sleep check_interval >>
     print "") s
  else ret () s.

(** One pass: the body of the [while] loop. *)
Definition polling_pass (job_ids : list string) (check_interval : Z)
    : M W unit :=
  begin_pass >>
  for_each job_ids poll_job >>
  wait_if_pending job_ids check_interval.

(** [while len(completed_jobs) < len(job_ids): ...], at most [fuel]
    passes. *)
Fixpoint while_pending (fuel : nat) (job_ids : list string)
    (check_interval : Z) : M W unit := λ s,
  if pending job_ids s then
    match fuel with
    | O => (OutOfFuel, s)
    | S fuel' =>
        (polling_pass job_ids check_interval >>
         while_pending fuel' job_ids check_interval) s
    end
  else ret () s.

(** The statements before the [while] loop. *)
Definition preamble (job_ids : list string) : M W unit :=
  print ("Waiting for " +:+ pretty (length job_ids)
         +:+ " job(s) to complete...") >>
  print ("This may take several minutes depending on the workload." +:+ nl) >>
  reset_completed.

(** The function up to the exit of the [while] loop. *)
Definition polling_phase (fuel : nat) (job_ids : list string)
    (check_interval : Z) : M W unit :=
  preamble job_ids >>
  while_pending fuel job_ids check_interval.

(** The body of the final-summary loop for one [job_id]. *)
Definition report_job (job_id : string) : M W unit :=
  let* response := describe_jobs job_id in
  let* job := first_job response in
  let* job_name := getitem job "jobName" in
  let* status := getitem job "status" in
  print ("  " +:+ job_name +:+ ": " +:+ status).

(** The statements after the [while] loop. *)
Definition final_summary (job_ids : list string) : M W unit :=
  print (nl +:+ " All " +:+ pretty (length job_ids)
         +:+ " job(s) have completed!") >>
  print (nl +:+ "Final Status Summary:") >>
  for_each job_ids report_job.

Definition wait_for_jobs_completion (fuel : nat) (job_ids : list string)
    (check_interval : Z) : M W unit :=
  polling_phase fuel job_ids check_interval >>
  final_summary job_ids.

(** The state in which the function is called. *)
Definition initial (w : W) : state W := State w ∅ [] 0.

(** ** Vocabulary of the properties *)

(** The worlds that can follow [w], whatever is asked and however long is
    slept. *)
Inductive evolves : W → W → Prop :=
| evolves_refl w : evolves w w
| evolves_query w job_id w' :
    evolves (batch_client w job_id).2 w' → evolves w w'
| evolves_sleep w seconds w' :
    evolves (time_passes w seconds) w' → evolves w w'.

(** In world [w] the provider answers a query for [job_id] with a job that
    has a name and a terminal status. *)
Definition reports_terminal (w : W) (job_id : string) : Prop :=
  ∃ j js name status,
    (batch_client w job_id).1 = inr (j :: js) ∧
    j !! "jobName" = Some name ∧
    j !! "status" = Some status ∧
    is_terminal status = true.

(** From world [w] on, the provider reports every job of [job_ids]
    terminal. *)
Definition settled (job_ids : list string) (w : W) : Prop :=
  ∀ w', evolves w w' → ∀ job_id, job_id ∈ job_ids → reports_terminal w' job_id.

(** [after_passes ids ci s s']: the [while] loop, at its head in state [s],
    is at its head again in state [s'] after some number of complete
    passes. *)
Inductive after_passes (job_ids : list string) (check_interval : Z)
    : state W → state W → Prop :=
| after_passes_refl s : after_passes job_ids check_interval s s
| after_passes_step s s1 s2 :
    pending job_ids s = true →
    polling_pass job_ids check_interval s = (Ok (), s1) →
    after_passes job_ids check_interval s1 s2 →
    after_passes job_ids check_interval s s2.

(** The states in which a call in world [w] reaches the head of the
    [while] loop. *)
Definition loop_head (job_ids : list string) (check_interval : Z) (w : W)
    (s : state W) : Prop :=
  after_passes job_ids check_interval (preamble job_ids (initial w)).2 s.

End Tracker.

(** Projections of a trace: the identifiers queried, the lines printed,
    the pauses taken, each in order. *)
Definition queried (t : list event) : list string :=
  t ≫= λ ev, match ev with EvDescribe job_id _ => [job_id] | _ => [] end.

Definition printed (t : list event) : list string :=
  t ≫= λ ev, match ev with EvPrint line => [line] | _ => [] end.

Definition slept (t : list event) : list Z :=
  t ≫= λ ev, match ev with EvSleep seconds => [seconds] | _ => [] end.

(** The queries of a trace that the provider answered with an exception. *)
Definition failed (t : list event) : list (string * exn) :=
  t ≫= λ ev, match ev with EvDescribe job_id (inl e) => [(job_id, e)] | _ => [] end.

(** The line of the final summary for an answer of the provider. *)
Definition status_line (jobs : list job) : string :=
  match jobs with
  | j :: _ => "  " +:+ default "" (j !! "jobName") +:+ ": "
              +:+ default "" (j !! "status")
  | [] => ""
  end.

(** The two events of the final summary for one job. *)
Definition summary_events (job_id : string) (jobs : list job) : list event :=
  [EvDescribe job_id (inr jobs); EvPrint (status_line jobs)].

(** How a computation ended, whatever its value. *)
Inductive outcome : Type :=
| Returned
| Raised (e : exn)
| Running.

Definition outcome_of {A} (r : result A) : outcome :=
  match r with
  | Ok _ => Returned
  | Raise e => Raised e
  | OutOfFuel => Running
  end.

(** [respects R m]: from every state [s], the computation [m] ends in a
    state related to [s] by [R], which may depend on how [m] ended. *)
Definition respects {W A} (R : state W → outcome → state W → Prop)
    (m : M W A) : Prop :=
  ∀ s, R s (outcome_of (m s).1) (m s).2.

(** [completed_jobs] only grows, and by elements of [X] only. *)
Definition grows_within {W} (X : gset string)
    : state W → outcome → state W → Prop := λ s _ s',
  completed_jobs s ⊆ completed_jobs s' ∧
  completed_jobs s' ⊆ completed_jobs s ∪ X.

(** Once [job_id] is in [completed_jobs] it stays there, and what is added
    to the trace holds no query for it. *)
Definition leaves_alone {W} (job_id : string)
    : state W → outcome → state W → Prop := λ s _ s',
  job_id ∈ completed_jobs s →
  job_id ∈ completed_jobs s' ∧
  ∃ t, out s' = out s ++ t ∧ job_id ∉ queried t.

(** What is added to the trace holds no pause. *)
Definition never_sleeps {W} : state W → outcome → state W → Prop := λ s _ s',
  ∃ t, out s' = out s ++ t ∧ slept t = [].

(** The ghost pass counter is kept. *)
Definition keeps_pass {W} : state W → outcome → state W → Prop := λ s _ s',
  passes s' = passes s.

(** A trace without a failed query stays so, unless the computation ends
    with the exception of a failed query that is the last event. *)
Definition fails_last {W} : state W → outcome → state W → Prop := λ s o s',
  failed (out s) = [] →
  match o with
  | Raised e =>
      failed (out s') = [] ∨
      ∃ t job_id, out s' = t ++ [EvDescribe job_id (inl e)] ∧ failed t = []
  | _ => failed (out s') = []
  end.

(** The default of the parameter [check_interval]. *)
Definition default_check_interval : Z := 60.

(** ** A scripted provider

    Three jobs; the world is the number of pauses taken so far.  Before the
    first pause the provider reports RUNNING, RUNNING, SUCCEEDED; after it
    SUCCEEDED, FAILED (reason OOM), SUCCEEDED.  Any other identifier is
    refused. *)
Definition describe (name status : string) (reason : option string) : job :=
  let j : job := <["jobName" := name]> (<["status" := status]> ∅) in
  match reason with
  | Some r => <["statusReason" := r]> j
  | None => j
  end.

Definition scripted_client (w : nat) (job_id : string)
    : (exn + list job) * nat :=
  (if bool_decide (job_id = "job-1") then
     inr [describe "progen2-1" (if w is 0 then "RUNNING" else "SUCCEEDED") None]
   else if bool_decide (job_id = "job-2") then
     inr [if w is 0 then describe "progen2-2" "RUNNING" None
          else describe "progen2-2" "FAILED" (Some "OOM")]
   else if bool_decide (job_id = "job-3") then
     inr [describe "progen2-3" "SUCCEEDED" None]
   else inl (ClientError "unknown job"),
   w).

Definition scripted_clock (w : nat) (seconds : Z) : nat := S w.

Definition three_jobs : list string := ["job-1"; "job-2"; "job-3"].

Abbreviation scripted_wait :=
  (wait_for_jobs_completion scripted_client scripted_clock).

(** The state at the head of the loop after the first pass of a call for
    the three jobs that starts before the first pause. *)
Definition after_first_pass : state nat :=
  (polling_pass scripted_client scripted_clock three_jobs
     default_check_interval (preamble three_jobs (initial 0)).2).2.

(** What a call for the three jobs, started before the first pause, is
    expected to leave as its trace. *)
Definition scripted_trace : list event :=
  [EvPrint "Waiting for 3 job(s) to complete...";
   EvPrint ("This may take several minutes depending on the workload." +:+ nl);
   (* first pass *)
   EvDescribe "job-1" (inr [describe "progen2-1" "RUNNING" None]);
   EvPrint "Job progen2-1 is RUNNING";
   EvDescribe "job-2" (inr [describe "progen2-2" "RUNNING" None]);
   EvPrint "Job progen2-2 is RUNNING";
   EvDescribe "job-3" (inr [describe "progen2-3" "SUCCEEDED" None]);
   EvPrint "Job progen2-3 completed with status: SUCCEEDED";
   EvPrint "[waiting 60 seconds before next check...]";
   EvSleep 60;
   EvPrint "";
   (* second pass *)
   EvDescribe "job-1" (inr [describe "progen2-1" "SUCCEEDED" None]);
   EvPrint "Job progen2-1 completed with status: SUCCEEDED";
   EvDescribe "job-2" (inr [describe "progen2-2" "FAILED" (Some "OOM")]);
   EvPrint "Job progen2-2 completed with status: FAILED";
   EvPrint "  Failure reason: OOM";
   (* final summary *)
   EvPrint (nl +:+ " All 3 job(s) have completed!");
   EvPrint (nl +:+ "Final Status Summary:");
   EvDescribe "job-1" (inr [describe "progen2-1" "SUCCEEDED" None]);
   EvPrint "  progen2-1: SUCCEEDED";
   EvDescribe "job-2" (inr [describe "progen2-2" "FAILED" (Some "OOM")]);
   EvPrint "  progen2-2: FAILED";
   EvDescribe "job-3" (inr [describe "progen2-3" "SUCCEEDED" None]);
   EvPrint "  progen2-3: SUCCEEDED"].

End Lab1.

(** * Lab 2: the custom inference script [inference-embeddings.py] *)
Module Lab2.

(** A value as [json.loads] builds it. *)
#[local] Unset Elimination Schemes.
Inductive json : Type :=
| JNull
| JBool (b : bool)
| JInt (n : Z)
| JFloat (literal : string)
| JStr (s : string)
| JArr (items : list json)
| JObj (members : gmap string json).
#[local] Set Elimination Schemes.

Inductive exn : Type :=
| ValueError (msg : string)
| KeyError (key : string)
| TypeError (msg : string)
| AttributeError (msg : string)
| LibraryError (msg : string).

Section Script.

(** The tensors, the model outputs and the devices of the libraries. *)
Context {Tensor Output Device : Type}.

(** What the script does to the outside, in order: log lines, and the
    calls into the tokenizer and the model. *)
Inductive event : Type :=
| EvLog (line : string)
| EvEncode (sequence : json)
| EvToDevice (inputs : Tensor)
| EvModel (inputs : Tensor) (output_hidden_states : bool).

(** A computation: the events it caused and its value or exception. *)
Definition M (A : Type) : Type := list event * (exn + A).

Definition ret {A} (a : A) : M A := ([], inr a).

Definition raise {A} (e : exn) : M A := ([], inl e).

Definition bind {A B} (m : M A) (k : A → M B) : M B :=
  match m with
  | (t, inl e) => (t, inl e)
  | (t, inr a) => let '(t', r) := k a in ((t ++ t')%list, r)
  end.

(** A call into a library: recorded, then its value or its exception. *)
Definition call {A} (ev : event) (r : exn + A) : M A := ([ev], r).

(** The outcome of a call that leaves no event. *)
Definition lift {A} (r : exn + A) : M A := ([], r).

(** [logging.info(line)] *)
Definition logging_info (line : string) : M unit := ([EvLog line], inr ()).

Notation "'let*' x ':=' m 'in' k" := (bind m (λ x, k))
  (at level 10, x name, m at level 100, k at level 200).
Notation "m >> k" := (bind m (λ _, k))
  (at level 100, k at level 200, right associativity).

(** [json.loads], the parser of the standard library. *)
Variable json_loads : string → exn + json.

(** Python's [str] of a value other than a string. *)
Variable repr : json → string.

(** What an f-string prints for a value. *)
Definition format (v : json) : string :=
  match v with
  | JStr s => s
  | _ => repr v
  end.

(** [v == s] for a string literal [s]. *)
Definition eq_str (v : json) (s : string) : bool :=
  match v with
  | JStr s' => bool_decide (s' = s)
  | _ => false
  end.

(** [v[key]] for a string [key]. *)
Definition getitem (v : json) (key : string) : M json :=
  match v with
  | JObj members =>
      match members !! key with
      | Some x => ret x
      | None => raise (KeyError key)
      end
  | JArr _ => raise (TypeError "list indices must be integers or slices, not str")
  | JStr _ => raise (TypeError "string indices must be integers")
  | _ => raise (TypeError "object is not subscriptable")
  end.

(** [v.get(key, dflt)] *)
Definition get (v : json) (key : string) (dflt : json) : M json :=
  match v with
  | JObj members => ret (default dflt (members !! key))
  | _ => raise (AttributeError "object has no attribute 'get'")
  end.

(** The triple that [model_fn] returns: the model (called with or without
    [output_hidden_states=True]), the tokenizer's [encode], the device. *)
Record artifacts : Type := Artifacts {
  model : Tensor → bool → exn + Output;
  tokenizer_encode : json → exn + Tensor;
  device : Device
}.

(** [inputs.to(device)] *)
Variable tensor_to : Tensor → Device → exn + Tensor.


Definition input_fn (request_body : string) (content_type : string)
    : M (json * json) :=
  logging_info "input_fn: Received input" >>
  if bool_decide (content_type = "application/json") then
    let* input_data := lift (json_loads request_body) in
    let* sequence := getitem input_data "sequence" in
    let* mode := get input_data "mode" (JStr "logits") in
    ret (sequence, mode)
  else
    raise (ValueError ("Unsupported content type: " +:+ content_type)).

Definition predict_fn (input_data : json * json) (model_artifacts : artifacts)
    : M (Output * json) :=
  logging_info "predict_fn: Running inference" >>
  let '(sequence, mode) := input_data in
  let '(Artifacts model tokenizer_encode device) := model_artifacts in
  let* inputs := call (EvEncode sequence) (tokenizer_encode sequence) in
  let* inputs := call (EvToDevice inputs) (tensor_to inputs device) in
  if eq_str mode "logits" then
    let* output := call (EvModel inputs false) (model inputs false) in
    ret (output, mode)
  else if eq_str mode "embeddings" then
    let* output := call (EvModel inputs true) (model inputs true) in
    ret (output, mode)
  else
    raise (ValueError ("Unknown mode: " +:+ format mode)).

(** The model calls of a trace. *)
Definition inferences (t : list event) : list (Tensor * bool) :=
  t ≫= λ ev, match ev with EvModel x h => [(x, h)] | _ => [] end.

End Script.

(** ** A stub environment

    A parser that answers every body with a request that has a sequence
    and no mode, a tokenizer and a model that never fail. *)
Definition stub_loads (body : string) : exn + json :=
  inr (JObj {["sequence" := JStr "MSVVGIDLGT"]}).

Definition stub_repr (v : json) : string := "None".

Definition stub_to (inputs : list Z) (device : string) : exn + list Z :=
  inr inputs.

Definition stub_artifacts : artifacts :=
  Artifacts (λ inputs hidden, inr (if hidden then "hidden" else "logits"))
            (λ sequence, inr [1; 2; 3]%Z)
            "cpu".

End Lab2.

(** * Lab 1: further vocabulary for the tracker *)
Module Lab1Spec.
Import Lab1.

(** An answer of the provider that the tracker takes for terminal: a first
    job with a name and a status among SUCCEEDED and FAILED. *)
Definition terminal_answer (a : exn + list job) : bool :=
  match a with
  | inr (j :: _) =>
      bool_decide (is_Some (j !! "jobName")) &&
      match j !! "status" with
      | Some status => is_terminal status
      | None => false
      end
  | _ => false
  end.

(** The trace [t] holds a query for [job_id] with a terminal answer. *)
Definition observed_terminal (job_id : string) (t : list event) : Prop :=
  ∃ a, EvDescribe job_id a ∈ t ∧ terminal_answer a = true.

(** Every completed job has been observed terminal. *)
Definition completed_observed {W} : state W → outcome → state W → Prop :=
  λ s _ s',
  (∀ job_id, job_id ∈ completed_jobs s → observed_terminal job_id (out s)) →
  (∀ job_id, job_id ∈ completed_jobs s' → observed_terminal job_id (out s')).

(** The exception that reading an answer raises, if any: the client's own,
    [IndexError] for an empty ['jobs'] list, [KeyError] for a first job
    without ['jobName'] or, then, without ['status']. *)
Definition answer_exn (a : exn + list job) : option exn :=
  match a with
  | inl e => Some e
  | inr [] => Some IndexError
  | inr (j :: _) =>
      match j !! "jobName" with
      | None => Some (KeyError "jobName")
      | Some _ =>
          match j !! "status" with
          | None => Some (KeyError "status")
          | Some _ => None
          end
      end
  end.

(** The queries of a trace whose answer cannot be read. *)
Definition unreadable (t : list event) : list (string * exn) :=
  t ≫= λ ev,
    match ev with
    | EvDescribe job_id a =>
        match answer_exn a with
        | Some e => [(job_id, e)]
        | None => []
        end
    | _ => []
    end.

(** What [time.sleep] raises for a negative length. *)
Definition sleep_refused : exn :=
  ValueError "sleep length must be non-negative".

(** A trace without an unreadable answer stays so, unless the computation
    ends with an exception: then either the exception is the one of the
    last event, a query with an unreadable answer, or it is the refusal of
    a negative interval by [time.sleep]. *)
Definition stops_at_unreadable {W} (check_interval : Z)
    : state W → outcome → state W → Prop := λ s o s',
  unreadable (out s) = [] →
  match o with
  | Raised e =>
      (unreadable (out s') = [] ∧ e = sleep_refused ∧ (check_interval < 0)%Z) ∨
      ∃ t job_id a,
        out s' = t ++ [EvDescribe job_id a] ∧
        answer_exn a = Some e ∧ unreadable t = []
  | _ => unreadable (out s') = []
  end.

(** What is added to the trace queries supplied identifiers only. *)
Definition queries_within {W} (job_ids : list string)
    : state W → outcome → state W → Prop := λ s _ s',
  ∃ t, out s' = out s ++ t ∧ ∀ job_id, job_id ∈ queried t → job_id ∈ job_ids.

(** [calm n ids m]: from every state the computation [m] ends without
    having run out of fuel, keeps the pass counter, and adds to the trace
    no pause and at most [n] queries, all for identifiers of [ids]. *)
Definition calm {W} (n : nat) (job_ids : list string) (m : M W unit) : Prop :=
  ∀ s,
    (m s).1 ≠ OutOfFuel ∧
    passes (m s).2 = passes s ∧
    completed_jobs s ⊆ completed_jobs (m s).2 ∧
    ∃ t, out (m s).2 = out s ++ t ∧
         slept t = [] ∧
         length (queried t) ≤ n ∧
         ∀ job_id, job_id ∈ queried t → job_id ∈ job_ids.

(** A provider that knows no job: like the Batch service for an unknown
    identifier, it answers every query with an empty list. *)
Definition empty_client (w : nat) (job_id : string)
    : (exn + list job) * nat :=
  (inr [], w).

End Lab1Spec.

(** * Lab 1: submitting the Batch jobs *)
Module Lab1Submit.

(** A dictionary with string values: a response of [submit_job], the
    [parameters] of a request. *)
Abbreviation dict := (gmap string string).

(** The keyword arguments of [batch_client.submit_job]. *)
Record request : Type := Request {
  jobName : string;
  jobQueue : string;
  jobDefinition : string;
  parameters : dict
}.

(** What the cell does to the outside, in order. *)
Inductive event : Type :=
| EvNow (timestamp : string)
| EvSubmit (req : request) (answer : Lab1.exn + dict)
| EvPrint (line : string).

(** The constants of the first cell. *)
Definition LAB1_FOLDER : string := "lab1-progen".
Definition model_id : string := "hugohrban/progen2-small".
Definition job_queue_name : string := "progen2-batch-job-queue".
Definition job_definition_name : string := "progen2-job-definition".

(** [f'workshop-data-{account_id}'] *)
Definition S3_BUCKET (account_id : string) : string :=
  "workshop-data-" +:+ account_id.

(** [f'progen2-batch-job-{batchNumber}-{timestamp}'] *)
Definition job_name (batchNumber : Z) (timestamp : string) : string :=
  "progen2-batch-job-" +:+ pretty batchNumber +:+ "-" +:+ timestamp.

(** [f'batch-10{batchNumber}'] *)
Definition batch_id (batchNumber : Z) : string :=
  "batch-10" +:+ pretty batchNumber.

Section Submit.

(** The external world: [submit_job w req] is the answer of the Batch
    service to a submission and the world after it; [now w] is what
    [datetime.datetime.now().strftime("%Y%m%d-%H%M%S")] reads, and the world
    after the reading.  [account_id] is what STS returned in the first
    cell. *)
Context {W : Type}.
Variable submit_job : W → request → (Lab1.exn + dict) * W.
Variable now : W → string * W.
Variable account_id : string.

(** The world, the list [jobs], the trace. *)
Record state : Type := State {
  world : W;
  jobs : list dict;
  out : list event
}.

Definition M (A : Type) : Type := state → (Lab1.exn + A) * state.

Definition ret {A} (a : A) : M A := λ s, (inr a, s).

Definition raise {A} (e : Lab1.exn) : M A := λ s, (inl e, s).

Definition bind {A B} (m : M A) (k : A → M B) : M B := λ s,
  match m s with
  | (inr a, s') => k a s'
  | (inl e, s') => (inl e, s')
  end.

Notation "'let*' x ':=' m 'in' k" := (bind m (λ x, k))
  (at level 10, x name, m at level 100, k at level 200).
Notation "m >> k" := (bind m (λ _, k))
  (at level 100, k at level 200, right associativity).

(** [print(line)] *)
Definition print (line : string) : M unit := λ s,
  (inr (), State (world s) (jobs s) (out s ++ [EvPrint line])).

(** [datetime.datetime.now().strftime("%Y%m%d-%H%M%S")] *)
Definition strftime_now : M string := λ s,
  let '(timestamp, w') := now (world s) in
  (inr timestamp, State w' (jobs s) (out s ++ [EvNow timestamp])).

(** [batch_client.submit_job(...)] *)
Definition call_submit_job (req : request) : M dict := λ s,
  let '(answer, w') := submit_job (world s) req in
  let s' := State w' (jobs s) (out s ++ [EvSubmit req answer]) in
  match answer with
  | inl e => (inl e, s')
  | inr response => (inr response, s')
  end.

(** [jobs = []] *)
Definition reset_jobs : M unit := λ s, (inr (), State (world s) [] (out s)).

(** [jobs.append(response)] *)
Definition append_job (response : dict) : M unit := λ s,
  (inr (), State (world s) (jobs s ++ [response]) (out s)).

(** [d[key]] *)
Definition getitem (d : dict) (key : string) : M string :=
  match d !! key with
  | Some v => ret v
  | None => raise (Lab1.KeyError key)
  end.

(** [for x in l: body(x)] *)
Fixpoint for_each {A} (l : list A) (body : A → M unit) : M unit :=
  match l with
  | [] => ret ()
  | x :: l' => body x >> for_each l' body
  end.

(** The request of the job with number [batchNumber]. *)
Definition job_request (batch_count batch_size batchNumber : Z)
    (timestamp : string) : request :=
  let s3_input_params_path :=
    "s3://" +:+ S3_BUCKET account_id +:+ "/" +:+ LAB1_FOLDER
    +:+ "/inference-params.json" in
  let s3_output_path :=
    "s3://" +:+ S3_BUCKET account_id +:+ "/" +:+ LAB1_FOLDER
    +:+ "/run-" +:+ pretty batch_count +:+ "-" +:+ pretty batch_size in
  Request (job_name batchNumber timestamp) job_queue_name job_definition_name
    (<["hfModelId" := model_id]>
     (<["s3InputParamsPath" := s3_input_params_path]>
     (<["batchId" := batch_id batchNumber]>
     (<["batchSize" := pretty batch_size]>
     (<["batchNumber" := pretty batchNumber]>
     (<["s3OutputPath" := s3_output_path]> ∅)))))).

(** The body of the submission loop. *)
Definition submit_one (batch_count batch_size batchNumber : Z) : M unit :=
  let* timestamp := strftime_now in
  let* response :=
    call_submit_job (job_request batch_count batch_size batchNumber timestamp) in
  append_job response >>
  let* job_id := getitem response "jobId" in
  let* name := getitem response "jobName" in
  print ("Submitted job: " +:+ name) >>
  print ("   Job ID: " +:+ job_id) >>
  let* arn := getitem response "jobArn" in
  print ("   Job ARN: " +:+ arn).

(** The cell of step 3.1: [range(batch_count)] is [seqZ 0 batch_count]. *)
Definition submit_jobs (batch_count batch_size : Z) : M unit :=
  reset_jobs >>
  for_each (seqZ 0 batch_count) (submit_one batch_count batch_size).

(** The state in which the cell is run. *)
Definition initial (w : W) : state := State w [] [].

End Submit.

(** [[job['jobId'] for job in jobs]] *)
Fixpoint job_ids (jobs : list dict) : Lab1.exn + list string :=
  match jobs with
  | [] => inr []
  | job :: rest =>
      match job !! "jobId" with
      | None => inl (Lab1.KeyError "jobId")
      | Some job_id =>
          match job_ids rest with
          | inl e => inl e
          | inr ids => inr (job_id :: ids)
          end
      end
  end.

(** ** Vocabulary of the properties *)

(** The submissions of a trace with their answers, the requests among
    them, the responses of those that succeeded, the exceptions of those
    that failed. *)
Definition submissions (t : list event) : list (request * (Lab1.exn + dict)) :=
  t ≫= λ ev, match ev with EvSubmit req a => [(req, a)] | _ => [] end.

Definition requests (t : list event) : list request :=
  t ≫= λ ev, match ev with EvSubmit req _ => [req] | _ => [] end.

Definition accepted (t : list event) : list dict :=
  t ≫= λ ev, match ev with EvSubmit _ (inr response) => [response] | _ => [] end.

Definition refused (t : list event) : list Lab1.exn :=
  t ≫= λ ev, match ev with EvSubmit _ (inl e) => [e] | _ => [] end.

(** The characters of a string are decimal digits. *)
Fixpoint all_digits (s : string) : Prop :=
  match s with
  | EmptyString => True
  | String c s' => (c ∈ ["0"; "1"; "2"; "3"; "4"; "5"; "6"; "7"; "8"; "9"]%char) ∧
                   all_digits s'
  end.

(** ** A scripted service

    The world counts the submissions; the service names the job as asked
    and numbers it; the clock always reads the same second. *)
Definition scripted_submit (w : nat) (req : request)
    : (Lab1.exn + dict) * nat :=
  (inr (<["jobId" := "id-" +:+ pretty w]>
        (<["jobName" := jobName req]>
        (<["jobArn" := "arn:aws:batch:job/" +:+ pretty w]> ∅))),
   S w).

Definition scripted_now (w : nat) : string * nat := ("20260101-120000", w).

End Lab1Submit.

(** * Lab 2: formatting the response, [output_fn] *)
Module Lab2Serving.
Import Lab2.

(** What [output_fn] can raise: the exceptions of the script so far, and
    [IndexError]. *)
Inductive error : Type :=
| Exn (e : exn)
| IndexError (msg : string).

Section Serving.

Context {Tensor Output : Type}.

(** The value of an attribute of the model output: [None], a tensor, or a
    tuple of tensors (the hidden states, one per layer). *)
Inductive value : Type :=
| VNone
| VTensor (t : Tensor)
| VTuple (items : list Tensor).

(** The model output as [output_fn] sees it: [logits_attr output] is
    [Some v] when [hasattr(output, 'logits')] and [output.logits] is [v],
    likewise for [hidden_states]; [type_name] is what [f"{type(output)}"]
    prints. *)
Variable logits_attr : Output → option value.
Variable hidden_states_attr : Output → option value.
Variable type_name : Output → string.

(** [t[-1]] and [t.tolist()] on a tensor, [json.dumps], and Python's [str]
    of a value that is not a string. *)
Variable tensor_last : Tensor → error + Tensor.
Variable tolist : Tensor → json.
Variable json_dumps : json → string.
Variable repr : json → string.

(** [v[-1]] *)
Definition index_last (v : value) : error + value :=
  match v with
  | VTuple items =>
      match last items with
      | Some t => inr (VTensor t)
      | None => inl (IndexError "tuple index out of range")
      end
  | VTensor t =>
      match tensor_last t with
      | inl e => inl e
      | inr t' => inr (VTensor t')
      end
  | VNone => inl (Exn (TypeError "'NoneType' object is not subscriptable"))
  end.

(** [v.tolist()] *)
Definition value_tolist (v : value) : error + json :=
  match v with
  | VTensor t => inr (tolist t)
  | VNone =>
      inl (Exn (AttributeError "'NoneType' object has no attribute 'tolist'"))
  | VTuple _ =>
      inl (Exn (AttributeError "'tuple' object has no attribute 'tolist'"))
  end.

(** The [if mode == ...] cascade that chooses [result]. *)
Definition select_result (output : Output) (mode : json) : error + value :=
  if eq_str mode "logits" then
    match logits_attr output with
    | Some v => inr v
    | None =>
        inl (Exn (ValueError ("Unknown prediction format: "
                              +:+ type_name output)))
    end
  else if eq_str mode "embeddings" then
    match hidden_states_attr output with
    | Some v => index_last v
    | None =>
        inl (Exn (ValueError ("Unknown prediction format: "
                              +:+ type_name output)))
    end
  else inl (Exn (ValueError ("Unknown mode: " +:+ format repr mode))).

Definition default_accept : string := "application/json".

(** [output_fn(prediction, accept)]: the log line it writes, and the pair
    it returns or the exception it raises. *)
Definition output_fn (prediction : Output * json) (accept : string)
    : list (event (Tensor:=Tensor)) * (error + string * string) :=
  let '(output, mode) := prediction in
  ([EvLog "output_fn: Formatting output"],
   if bool_decide (accept = "application/json") then
     match select_result output mode with
     | inl e => inl e
     | inr result =>
         match value_tolist result with
         | inl e => inl e
         | inr l => inr (json_dumps (JObj {[format repr mode := l]}), accept)
         end
     end
   else inl (Exn (ValueError ("Unsupported accept type: " +:+ accept)))).

End Serving.

(** ** A stub model output

    An output that is a pair of optional attributes; tensors are lists of
    integers. *)
Definition stub_logits (output : option (list Z) * option (list (list Z)))
    : option (value (Tensor:=list Z)) :=
  VTensor <$> output.1.

Definition stub_hidden_states
    (output : option (list Z) * option (list (list Z)))
    : option (value (Tensor:=list Z)) :=
  VTuple <$> output.2.

Definition stub_type_name
    (output : option (list Z) * option (list (list Z))) : string :=
  "<class 'ModelOutput'>".

Definition stub_tensor_last (t : list Z) : error + list Z :=
  match last t with
  | Some z => inr [z]
  | None => inl (IndexError "index -1 is out of bounds")
  end.

Definition stub_tolist (t : list Z) : json := JArr (JInt <$> t).

Definition stub_dumps (v : json) : string :=
  match v with
  | JObj members => "{" +:+ pretty (size members) +:+ " members}"
  | _ => "?"
  end.

Abbreviation stub_output_fn :=
  (output_fn stub_logits stub_hidden_states stub_type_name stub_tensor_last
     stub_tolist stub_dumps stub_repr).

End Lab2Serving.

(** * Properties of the tracker *)
Module TrackerProofs.
Import Lab1.

#[local] Set Warnings "-clear-no-such-hyp".

(** ** Traces *)

Lemma queried_app t1 t2 : queried (t1 ++ t2) = queried t1 ++ queried t2.
Proof. apply bind_app. Qed.

Lemma printed_app t1 t2 : printed (t1 ++ t2) = printed t1 ++ printed t2.
Proof. apply bind_app. Qed.

Lemma slept_app t1 t2 : slept (t1 ++ t2) = slept t1 ++ slept t2.
Proof. apply bind_app. Qed.

Lemma failed_app t1 t2 : failed (t1 ++ t2) = failed t1 ++ failed t2.
Proof. apply bind_app. Qed.

(** ** Lifting a relation through the control structures *)
Section Respect.

Context {W : Type}.
Variable R : state W → outcome → state W → Prop.
Hypothesis R_refl : ∀ s o, R s o s.
Hypothesis R_trans : ∀ s1 s2 o s3, R s1 Returned s2 → R s2 o s3 → R s1 o s3.

Lemma respects_ret {A} (a : A) : respects R (ret a).
Proof. intros s. apply R_refl. Qed.

Lemma respects_raise {A} e : respects R (raise (A:=A) e).
Proof. intros s. apply R_refl. Qed.

Lemma respects_bind {A B} (m : M W A) (k : A → M W B) :
  respects R m → (∀ a, respects R (k a)) → respects R (bind m k).
Proof.
  intros Hm Hk s. unfold bind. specialize (Hm s).
  destruct (m s) as [[a|e|] s1]; simpl in *; [|done..].
  eapply R_trans; [exact Hm|apply Hk].
Qed.

Lemma respects_for_each {A} (l : list A) (body : A → M W unit) :
  (∀ x, x ∈ l → respects R (body x)) → respects R (for_each l body).
Proof.
  induction l as [|x l IH]; intros Hbody; simpl.
  - apply respects_ret.
  - apply respects_bind.
    + apply Hbody. by left.
    + intros _. apply IH. intros y Hy. apply Hbody. by right.
Qed.

Section Loop.

Variable batch_client : W → string → (exn + list job) * W.
Variable time_passes : W → Z → W.
Variables (ids : list string) (ci : Z).

Hypothesis R_begin : respects R begin_pass.
Hypothesis R_poll : ∀ job_id,
  job_id ∈ ids → respects R (poll_job batch_client job_id).
Hypothesis R_wait : respects R (wait_if_pending time_passes ids ci).

Lemma respects_polling_pass :
  respects R (polling_pass batch_client time_passes ids ci).
Proof.
  unfold polling_pass. apply respects_bind; [done|intros _].
  apply respects_bind; [|done]. by apply respects_for_each.
Qed.

Lemma respects_while_pending fuel :
  respects R (while_pending batch_client time_passes fuel ids ci).
Proof.
  induction fuel as [|fuel IH]; intros s; simpl.
  - destruct (pending ids s); apply R_refl.
  - destruct (pending ids s); [|apply R_refl].
    apply respects_bind; [apply respects_polling_pass|done].
Qed.

End Loop.

End Respect.

(** Unfold one step of the tracker down to the state it builds. *)
Ltac run :=
  unfold respects, poll_job, report_job, wait_if_pending, preamble, bind,
    get_completed, describe_jobs, first_job, getitem, print, emit,
    add_completed, reset_completed, time_sleep, begin_pass, ret, raise;
  simpl.

Ltac run_cases :=
  run; repeat first [case_bool_decide | case_match]; simplify_eq/=.

Section Facts.

Context {W : Type}.
Variable batch_client : W → string → (exn + list job) * W.
Variable time_passes : W → Z → W.

(** ** The completed set only grows, within the supplied identifiers *)

Lemma grows_within_refl (X : gset string) (s : state W) o :
  grows_within X s o s.
Proof. unfold grows_within. set_solver. Qed.

Lemma grows_within_trans (X : gset string) (s1 s2 : state W) o s3 :
  grows_within X s1 Returned s2 → grows_within X s2 o s3 →
  grows_within X s1 o s3.
Proof. unfold grows_within. set_solver. Qed.

Lemma grows_within_mono (X Y : gset string) (s : state W) o s' :
  X ⊆ Y → grows_within X s o s' → grows_within Y s o s'.
Proof. unfold grows_within. set_solver. Qed.

Lemma poll_job_grows job_id :
  respects (grows_within {[job_id]}) (poll_job batch_client job_id).
Proof.
  intros s. run_cases; unfold grows_within; simpl; set_solver.
Qed.

Lemma wait_if_pending_grows X ids ci :
  respects (grows_within X) (wait_if_pending time_passes ids ci).
Proof.
  intros s. run_cases; unfold grows_within; simpl; set_solver.
Qed.

Lemma begin_pass_grows X :
  respects (grows_within (W:=W) X) begin_pass.
Proof. intros s. unfold grows_within. simpl. set_solver. Qed.

Lemma while_pending_grows fuel ids ci :
  respects (grows_within (list_to_set ids))
    (while_pending batch_client time_passes fuel ids ci).
Proof.
  apply respects_while_pending.
  - apply grows_within_refl.
  - apply grows_within_trans.
  - apply begin_pass_grows.
  - intros job_id Hin s.
    eapply grows_within_mono; [|apply poll_job_grows]. set_solver.
  - apply wait_if_pending_grows.
Qed.

Lemma size_add_le (x : string) (X : gset string) :
  size ({[x]} ∪ X) ≤ S (size X).
Proof.
  destruct (decide (x ∈ X)) as [Hin|Hout].
  - replace ({[x]} ∪ X) with X by set_solver. lia.
  - rewrite size_union by set_solver. rewrite size_singleton. lia.
Qed.

Lemma size_list_to_set_le (l : list string) :
  size (list_to_set l : gset string) ≤ length l.
Proof.
  induction l as [|x l IH].
  - rewrite list_to_set_nil, size_empty. simpl. lia.
  - rewrite list_to_set_cons. simpl.
    pose proof (size_add_le x (list_to_set l)). lia.
Qed.

Lemma size_list_to_set_dup (l : list string) :
  ¬ NoDup l → size (list_to_set l : gset string) < length l.
Proof.
  induction l as [|x l IH]; intros Hdup.
  - destruct Hdup. constructor.
  - rewrite list_to_set_cons. simpl.
    destruct (decide (x ∈ l)) as [Hin|Hout].
    + replace ({[x]} ∪ list_to_set l : gset string) with
        (list_to_set l : gset string) by set_solver.
      pose proof (size_list_to_set_le l). lia.
    + assert (¬ NoDup l) as Hl by (intros Hl; apply Hdup; by constructor).
      pose proof (size_add_le x (list_to_set l)). specialize (IH Hl). lia.
Qed.

Lemma size_distinct (l : list string) :
  size (list_to_set l : gset string) = length (remove_dups l).
Proof.
  rewrite <- (size_list_to_set (C:=gset string) (remove_dups l))
    by apply NoDup_remove_dups.
  f_equal. apply set_eq. intros x.
  by rewrite !elem_of_list_to_set, elem_of_remove_dups.
Qed.

Lemma preamble_initial ids (w : W) :
  preamble ids (initial w) =
    (Ok (),
     State w ∅
       [EvPrint ("Waiting for " +:+ pretty (length ids)
                 +:+ " job(s) to complete...");
        EvPrint ("This may take several minutes depending on the workload."
                 +:+ nl)] 0).
Proof. reflexivity. Qed.

Lemma polling_pass_grows ids ci :
  respects (grows_within (list_to_set ids))
    (polling_pass batch_client time_passes ids ci).
Proof.
  apply respects_polling_pass.
  - apply grows_within_refl.
  - apply grows_within_trans.
  - apply begin_pass_grows.
  - intros job_id Hin s.
    eapply grows_within_mono; [|apply poll_job_grows]. set_solver.
  - apply wait_if_pending_grows.
Qed.

Lemma after_passes_grows ids ci s s' :
  after_passes batch_client time_passes ids ci s s' →
  grows_within (list_to_set ids) s Returned s'.
Proof.
  induction 1 as [s|s s1 s2 Hp Hpass _ IH].
  - apply grows_within_refl.
  - eapply grows_within_trans; [|exact IH].
    pose proof (polling_pass_grows ids ci s) as Hg. by rewrite Hpass in Hg.
Qed.

Lemma loop_head_within ids ci w s :
  loop_head batch_client time_passes ids ci w s →
  completed_jobs s ⊆ list_to_set ids.
Proof.
  intros Hhead. apply after_passes_grows in Hhead.
  destruct Hhead as [_ Hsub]. rewrite preamble_initial in Hsub.
  simpl in Hsub. set_solver.
Qed.

Lemma within_bounded ids (X : gset string) :
  X ⊆ list_to_set ids → size X ≤ length (remove_dups ids).
Proof. intros Hsub. rewrite <- size_distinct. by apply subseteq_size. Qed.

(** C8. From any state [s] in which a call reaches the head of the [while]
    loop, run the loop for any number of passes, to its exit, to an
    exception or until the fuel is spent, and let [s'] be the state then:
    every identifier completed in [s] is still completed in [s'], so the set
    has not shrunk, and its size is at most the number of distinct supplied
    identifiers.  The same holds step by step: the body of the polling loop,
    run for any identifier from any state [s0], removes nothing. *)
Theorem completed_grows_bounded ids ci (w : W) s fuel s0 job_id :
  loop_head batch_client time_passes ids ci w s →
  let s' := (while_pending batch_client time_passes fuel ids ci s).2 in
  completed_jobs s ⊆ completed_jobs s' ∧
  size (completed_jobs s) ≤ size (completed_jobs s') ∧
  size (completed_jobs s') ≤ length (remove_dups ids) ∧
  completed_jobs s0 ⊆ completed_jobs (poll_job batch_client job_id s0).2.
Proof.
  intros Hhead s'. apply loop_head_within in Hhead.
  destruct (while_pending_grows fuel ids ci s) as [Hsub Hin]. fold s' in Hsub, Hin.
  split; [done|]. split; [by apply subseteq_size|]. split.
  - apply within_bounded. set_solver.
  - apply (poll_job_grows job_id s0).
Qed.

Lemma while_pending_exit fuel ids ci (s s' : state W) :
  while_pending batch_client time_passes fuel ids ci s = (Ok (), s') →
  pending ids s' = false.
Proof.
  revert s. induction fuel as [|fuel IH]; intros s; simpl;
    destruct (pending ids s) eqn:Hp; unfold ret; try congruence.
  unfold bind at 1.
  destruct (polling_pass _ _ _ _ s) as [[[]|e|] s1]; try congruence.
  apply IH.
Qed.

Lemma pending_dup ids (s : state W) :
  ¬ NoDup ids → completed_jobs s ⊆ list_to_set ids → pending ids s = true.
Proof.
  intros Hdup Hsub. unfold pending. apply bool_decide_eq_true.
  apply subseteq_size in Hsub. pose proof (size_list_to_set_dup ids Hdup). lia.
Qed.

Lemma polling_phase_within fuel ids ci (w : W) :
  completed_jobs
    (polling_phase batch_client time_passes fuel ids ci (initial w)).2
  ⊆ list_to_set ids.
Proof.
  unfold polling_phase, bind. rewrite preamble_initial.
  match goal with |- context [while_pending _ _ _ _ _ ?s0] =>
    destruct (while_pending_grows fuel ids ci s0) as [_ Hin];
    destruct (while_pending batch_client time_passes fuel ids ci s0)
      as [[[]|e|] s1] end; simpl in *; set_solver.
Qed.

Lemma polling_phase_exit fuel ids ci (w : W) s :
  polling_phase batch_client time_passes fuel ids ci (initial w) = (Ok (), s) →
  pending ids s = false.
Proof.
  unfold polling_phase, bind. rewrite preamble_initial. apply while_pending_exit.
Qed.

(** ** A provider that reports every job terminal *)

Lemma evolves_trans (w1 w2 w3 : W) :
  evolves batch_client time_passes w1 w2 →
  evolves batch_client time_passes w2 w3 →
  evolves batch_client time_passes w1 w3.
Proof.
  induction 1 as [w|w job_id w' _ IH|w seconds w' _ IH]; intros H23.
  - done.
  - eapply evolves_query, IH, H23.
  - eapply evolves_sleep, IH, H23.
Qed.

Lemma settled_evolves ids (w w' : W) :
  settled batch_client time_passes ids w →
  evolves batch_client time_passes w w' →
  settled batch_client time_passes ids w'.
Proof.
  intros Hset Hev w'' Hev' job_id Hin.
  eapply Hset; [|done]. by eapply evolves_trans.
Qed.

Lemma settled_sublist ids ids' (w : W) :
  ids' ⊆ ids →
  settled batch_client time_passes ids w →
  settled batch_client time_passes ids' w.
Proof. intros Hsub Hset w' Hev job_id Hin. apply Hset; [done|]. by apply Hsub. Qed.

Lemma poll_job_settled job_id (s : state W) :
  reports_terminal batch_client (world s) job_id →
  ∃ s', poll_job batch_client job_id s = (Ok (), s') ∧
        completed_jobs s' = {[job_id]} ∪ completed_jobs s ∧
        evolves batch_client time_passes (world s) (world s') ∧
        passes s' = passes s.
Proof.
  intros (j & js & name & status & Hq & Hname & Hstatus & Hterm).
  unfold poll_job, bind, get_completed. simpl.
  case_bool_decide as Hseen.
  { exists s. repeat split; [set_solver|constructor]. }
  assert (evolves batch_client time_passes (world s)
            (batch_client (world s) job_id).2) as Hev
    by (eapply evolves_query; constructor).
  unfold describe_jobs.
  destruct (batch_client (world s) job_id) as [answer w'] eqn:Hb.
  simpl in Hq, Hev. subst answer. simpl.
  unfold getitem. rewrite Hname. simpl. rewrite Hstatus. simpl.
  rewrite Hterm. rewrite bool_decide_true by done. simpl.
  destruct (bool_decide (status = "FAILED") &&
            bool_decide (is_Some (j !! "statusReason"))) eqn:Hreason.
  - apply andb_true_iff in Hreason as [_ [reason Hr]%bool_decide_eq_true].
    rewrite Hr. simpl. eexists. repeat split; done.
  - eexists. repeat split; done.
Qed.

Lemma for_each_poll_settled l (s : state W) :
  settled batch_client time_passes l (world s) →
  ∃ s', for_each l (poll_job batch_client) s = (Ok (), s') ∧
        completed_jobs s' = list_to_set l ∪ completed_jobs s ∧
        evolves batch_client time_passes (world s) (world s') ∧
        passes s' = passes s.
Proof.
  revert s. induction l as [|job_id l IH]; intros s Hset.
  - exists s. repeat split; [set_solver|constructor].
  - destruct (poll_job_settled job_id s) as (s1 & Hrun & Hc & Hev & Hp).
    { apply Hset; [constructor|by left]. }
    destruct (IH s1) as (s2 & Hrun2 & Hc2 & Hev2 & Hp2).
    { eapply settled_sublist; [|by eapply settled_evolves]. set_solver. }
    exists s2. simpl. unfold bind. rewrite Hrun. repeat split.
    + done.
    + rewrite Hc2, Hc. set_solver.
    + by eapply evolves_trans.
    + congruence.
Qed.

Lemma size_all_ids ids (X : gset string) :
  NoDup ids → length ids ≤ size (list_to_set ids ∪ X).
Proof.
  intros Hnd. rewrite <- (size_list_to_set (C:=gset string) ids Hnd).
  apply subseteq_size. set_solver.
Qed.

Lemma pass_settled_done ids ci (s : state W) :
  NoDup ids →
  settled batch_client time_passes ids (world s) →
  ∃ s', polling_pass batch_client time_passes ids ci s = (Ok (), s') ∧
        pending ids s' = false ∧
        evolves batch_client time_passes (world s) (world s') ∧
        passes s' = S (passes s).
Proof.
  intros Hnd Hset. unfold polling_pass, bind at 1. simpl.
  destruct (for_each_poll_settled ids
              (State (world s) (completed_jobs s) (out s) (S (passes s))))
    as (s1 & Hrun & Hc & Hev & Hp); [done|].
  unfold bind. rewrite Hrun. unfold wait_if_pending.
  assert (pending ids s1 = false) as Hdone.
  { apply bool_decide_eq_false. rewrite Hc.
    pose proof (size_all_ids ids (completed_jobs s) Hnd). simpl in *. lia. }
  rewrite Hdone. by exists s1.
Qed.

Lemma pass_settled_dup ids ci (s : state W) :
  ¬ NoDup ids → (0 ≤ ci)%Z →
  completed_jobs s ⊆ list_to_set ids →
  settled batch_client time_passes ids (world s) →
  ∃ s', polling_pass batch_client time_passes ids ci s = (Ok (), s') ∧
        completed_jobs s' ⊆ list_to_set ids ∧
        settled batch_client time_passes ids (world s') ∧
        passes s' = S (passes s).
Proof.
  intros Hdup Hci Hsub Hset. unfold polling_pass, bind at 1. simpl.
  destruct (for_each_poll_settled ids
              (State (world s) (completed_jobs s) (out s) (S (passes s))))
    as (s1 & Hrun & Hc & Hev & Hp); [done|].
  unfold bind at 1. rewrite Hrun. unfold wait_if_pending.
  simpl in Hc, Hev, Hp.
  rewrite pending_dup; [|done|rewrite Hc; set_solver].
  run. rewrite bool_decide_false by lia.
  eexists. split; [done|]. simpl. repeat split.
  - rewrite Hc. set_solver.
  - eapply settled_evolves; [exact Hset|].
    eapply evolves_trans; [exact Hev|]. eapply evolves_sleep. constructor.
  - done.
Qed.

Lemma report_job_settled job_id (s : state W) :
  reports_terminal batch_client (world s) job_id →
  ∃ s', report_job batch_client job_id s = (Ok (), s') ∧
        evolves batch_client time_passes (world s) (world s') ∧
        completed_jobs s' = completed_jobs s ∧
        passes s' = passes s.
Proof.
  intros (j & js & name & status & Hq & Hname & Hstatus & Hterm).
  assert (evolves batch_client time_passes (world s)
            (batch_client (world s) job_id).2) as Hev
    by (eapply evolves_query; constructor).
  unfold report_job, bind, describe_jobs.
  destruct (batch_client (world s) job_id) as [answer w'] eqn:Hb.
  simpl in Hq, Hev. subst answer. simpl.
  unfold getitem. rewrite Hname. simpl. rewrite Hstatus. simpl.
  eexists. repeat split; done.
Qed.

Lemma for_each_report_settled l (s : state W) :
  settled batch_client time_passes l (world s) →
  ∃ s', for_each l (report_job batch_client) s = (Ok (), s') ∧
        completed_jobs s' = completed_jobs s ∧
        passes s' = passes s.
Proof.
  revert s. induction l as [|job_id l IH]; intros s Hset.
  - by exists s.
  - destruct (report_job_settled job_id s) as (s1 & Hrun & Hev & Hc & Hp).
    { apply Hset; [constructor|by left]. }
    destruct (IH s1) as (s2 & Hrun2 & Hc2 & Hp2).
    { eapply settled_sublist; [|by eapply settled_evolves]. set_solver. }
    exists s2. simpl. unfold bind. rewrite Hrun. repeat split; congruence.
Qed.

Lemma final_summary_settled ids (s : state W) :
  settled batch_client time_passes ids (world s) →
  ∃ s', final_summary batch_client ids s = (Ok (), s') ∧
        completed_jobs s' = completed_jobs s ∧
        passes s' = passes s.
Proof.
  intros Hset. unfold final_summary, bind at 1 2, print, emit. simpl.
  by apply (for_each_report_settled ids (State _ _ _ _)).
Qed.

(** ** Counting passes, and fuel *)

Lemma polling_pass_counts ids ci (s : state W) :
  passes (polling_pass batch_client time_passes ids ci s).2 = S (passes s).
Proof.
  assert (respects (keeps_pass (W:=W))
            (for_each ids (poll_job batch_client) >>
             wait_if_pending time_passes ids ci)) as Hkeep.
  { assert (∀ (s : state W) o, keeps_pass s o s) as Hrefl by done.
    assert (∀ (s1 s2 : state W) o s3,
              keeps_pass s1 Returned s2 → keeps_pass s2 o s3 →
              keeps_pass s1 o s3) as Htrans
      by (unfold keeps_pass; intros; congruence).
    apply respects_bind; [done..| |].
    - apply respects_for_each; [done..|].
      intros job_id _ s0. unfold keeps_pass. run_cases; done.
    - intros _ s0. unfold keeps_pass. run_cases; done. }
  unfold polling_pass, bind at 1. simpl. apply Hkeep.
Qed.

Lemma while_pending_after ids ci (s s' : state W) :
  after_passes batch_client time_passes ids ci s s' →
  passes s ≤ passes s' ∧
  ∀ n, while_pending batch_client time_passes (passes s' - passes s + n) ids ci s
       = while_pending batch_client time_passes n ids ci s'.
Proof.
  induction 1 as [s|s s1 s2 Hp Hpass _ [Hle IH]].
  - split; [done|]. intros n. by rewrite Nat.sub_diag.
  - pose proof (polling_pass_counts ids ci s) as Hcount.
    rewrite Hpass in Hcount. simpl in Hcount.
    split; [lia|]. intros n.
    replace (passes s2 - passes s + n) with (S (passes s2 - passes s1 + n))
      by lia.
    simpl. rewrite Hp. unfold bind at 1. rewrite Hpass. apply IH.
Qed.

Lemma polling_phase_at_head ids ci (w : W) s n :
  loop_head batch_client time_passes ids ci w s →
  polling_phase batch_client time_passes (passes s + n) ids ci (initial w)
  = while_pending batch_client time_passes n ids ci s.
Proof.
  intros Hhead. apply while_pending_after in Hhead as [_ Hrun].
  rewrite preamble_initial in Hrun. simpl in Hrun.
  unfold polling_phase, bind. rewrite preamble_initial.
  specialize (Hrun n). rewrite Nat.sub_0_r in Hrun. rewrite Hrun.
  by destruct (while_pending _ _ _ _ _ s) as [[[]|e|] s1].
Qed.

Lemma loop_head_no_jobs ci (w : W) s :
  loop_head batch_client time_passes [] ci w s →
  s = (preamble [] (initial w)).2.
Proof.
  unfold loop_head. rewrite preamble_initial. simpl.
  inversion 1 as [|s0 s1 s2 Hp]; [done|]. discriminate Hp.
Qed.

Lemma no_jobs_at_once fuel ci (w : W) :
  wait_for_jobs_completion batch_client time_passes fuel [] ci (initial w) =
    (Ok (),
     State w ∅
       [EvPrint "Waiting for 0 job(s) to complete...";
        EvPrint ("This may take several minutes depending on the workload."
                 +:+ nl);
        EvPrint (nl +:+ " All 0 job(s) have completed!");
        EvPrint (nl +:+ "Final Status Summary:")] 0).
Proof. by destruct fuel. Qed.

(** C1 (amended to lists without a repeated identifier).  Let the job
    identifiers be pairwise distinct, and let a call reach the head of the
    [while] loop in a state [s] from which the provider reports every job
    terminal.  Then the call returns, with any fuel above the number of
    passes made up to [s], after at most one more pass.  With no job at all
    the call returns for every fuel and every world, and its trace is the
    four printed lines: no query, no pause, no pass. *)
Theorem tracker_terminates ids ci (w : W) s :
  NoDup ids →
  loop_head batch_client time_passes ids ci w s →
  settled batch_client time_passes ids (world s) →
  ∃ s',
    (∀ fuel, passes s < fuel →
       wait_for_jobs_completion batch_client time_passes fuel ids ci (initial w)
       = (Ok (), s')) ∧
    passes s' ≤ S (passes s) ∧
    (ids = [] →
       ∀ fuel,
         wait_for_jobs_completion batch_client time_passes fuel ids ci (initial w)
         = (Ok (), s') ∧
         queried (out s') = [] ∧ slept (out s') = [] ∧ passes s' = 0).
Proof.
  intros Hnd Hhead Hset.
  assert (∃ s1, (∀ n, while_pending batch_client time_passes (S n) ids ci s
                      = (Ok (), s1)) ∧
                passes s1 ≤ S (passes s) ∧
                settled batch_client time_passes ids (world s1))
    as (s1 & Hloop & Hp1 & Hset1).
  { destruct (pending ids s) eqn:Hpend.
    - destruct (pass_settled_done ids ci s Hnd Hset)
        as (s1 & Hpass & Hdone & Hev & Hp).
      exists s1. split; [|split; [lia|by eapply settled_evolves]].
      intros n. simpl. rewrite Hpend. unfold bind. rewrite Hpass.
      destruct n; simpl; by rewrite Hdone.
    - exists s. split; [|split; [lia|done]].
      intros n. simpl. by rewrite Hpend. }
  destruct (final_summary_settled ids s1 Hset1) as (s' & Hfinal & _ & Hp').
  assert (∀ fuel, passes s < fuel →
            wait_for_jobs_completion batch_client time_passes fuel ids ci
              (initial w) = (Ok (), s')) as Hrun.
  { intros fuel Hfuel. unfold wait_for_jobs_completion, bind at 1.
    replace fuel with (passes s + S (fuel - S (passes s))) by lia.
    rewrite (polling_phase_at_head ids ci w s _ Hhead), Hloop. exact Hfinal. }
  exists s'. split; [exact Hrun|]. split; [lia|].
  intros -> fuel.
  pose proof (no_jobs_at_once fuel ci w) as Hnone.
  apply loop_head_no_jobs in Hhead. subst s.
  specialize (Hrun 1 ltac:(simpl; lia)).
  rewrite no_jobs_at_once in Hrun. injection Hrun as <-.
  by rewrite Hnone.
Qed.

(** ** A repeated identifier *)

Lemma while_dup_settled fuel ids ci (s : state W) :
  ¬ NoDup ids → (0 ≤ ci)%Z →
  completed_jobs s ⊆ list_to_set ids →
  settled batch_client time_passes ids (world s) →
  ∃ s', while_pending batch_client time_passes fuel ids ci s = (OutOfFuel, s') ∧
        passes s' = passes s + fuel.
Proof.
  intros Hdup Hci. revert s.
  induction fuel as [|fuel IH]; intros s Hsub Hset; simpl;
    rewrite (pending_dup ids s Hdup Hsub).
  - exists s. split; [done|lia].
  - destruct (pass_settled_dup ids ci s Hdup Hci Hsub Hset)
      as (s1 & Hpass & Hsub1 & Hset1 & Hp1).
    destruct (IH s1 Hsub1 Hset1) as (s' & Hrun & Hp').
    exists s'. unfold bind. rewrite Hpass. split; [done|lia].
Qed.

Lemma duplicates_outcome ids ci (w : W) fuel :
  ¬ NoDup ids →
  let r := wait_for_jobs_completion batch_client time_passes fuel ids ci
             (initial w) in
  r.1 ≠ Ok () ∧
  size (completed_jobs r.2) < length ids ∧
  (settled batch_client time_passes ids w → (0 ≤ ci)%Z →
   r.1 = OutOfFuel ∧ passes r.2 = fuel).
Proof.
  intros Hdup r.
  pose proof (polling_phase_within fuel ids ci w) as Hsub.
  pose proof (polling_phase_exit fuel ids ci w) as Hexit.
  assert (r = polling_phase batch_client time_passes fuel ids ci (initial w) ∧
          r.1 ≠ Ok ()) as [Hr Hne].
  { subst r. unfold wait_for_jobs_completion, bind.
    destruct (polling_phase _ _ _ _ _ _) as [[[]|e|] s0]; [|by split..].
    simpl in Hsub. specialize (Hexit s0 eq_refl).
    by rewrite (pending_dup ids s0 Hdup Hsub) in Hexit. }
  split; [done|]. split.
  - rewrite Hr. apply subseteq_size in Hsub.
    pose proof (size_list_to_set_dup ids Hdup). lia.
  - intros Hset Hci. rewrite Hr.
    unfold polling_phase, bind. rewrite preamble_initial.
    destruct (while_dup_settled fuel ids ci
                (State w ∅
                   [EvPrint ("Waiting for " +:+ pretty (length ids)
                             +:+ " job(s) to complete...");
                    EvPrint ("This may take several minutes depending on the workload."
                             +:+ nl)] 0) Hdup Hci)
      as (s' & Hrun & Hp); [set_solver|done|].
    by rewrite Hrun.
Qed.


(** ** A completed job is left alone by the passes *)

Lemma leaves_alone_refl job_id (s : state W) o : leaves_alone job_id s o s.
Proof.
  intros Hin. split; [done|]. exists []. split; [by rewrite app_nil_r|].
  set_solver.
Qed.

Lemma leaves_alone_trans job_id (s1 s2 : state W) o s3 :
  leaves_alone job_id s1 Returned s2 → leaves_alone job_id s2 o s3 →
  leaves_alone job_id s1 o s3.
Proof.
  intros H12 H23 Hin. destruct (H12 Hin) as (Hin2 & t1 & Ht1 & Hq1).
  destruct (H23 Hin2) as (Hin3 & t2 & Ht2 & Hq2).
  split; [done|]. exists (t1 ++ t2). split.
  - by rewrite Ht2, Ht1, app_assoc.
  - rewrite queried_app. set_solver.
Qed.

(** Write the trace of the goal as the old trace followed by new events. *)
Ltac new_events :=
  first
    [ exists []; split; [by rewrite app_nil_r|]
    | rewrite <- ?app_assoc; eexists; split; [reflexivity|] ];
  simpl.

Lemma poll_job_leaves_alone job_id other :
  respects (leaves_alone job_id) (poll_job batch_client other).
Proof.
  intros s. run_cases; intros Hin; simpl in *;
    (split; [set_solver|]); new_events; set_solver.
Qed.

Lemma while_pending_leaves_alone job_id fuel ids ci :
  respects (leaves_alone job_id)
    (while_pending batch_client time_passes fuel ids ci).
Proof.
  apply respects_while_pending.
  - apply leaves_alone_refl.
  - apply leaves_alone_trans.
  - intros s Hin. split; [done|]. simpl. new_events. set_solver.
  - intros other _. apply poll_job_leaves_alone.
  - intros s. run_cases; intros Hin; simpl in *;
      (split; [set_solver|]); new_events; set_solver.
Qed.

(** C2 (amended to the polling passes).  Once [job_id] is in the completed
    set, the body of the polling loop for it does nothing: no query, no
    line, no change of state.  So however many passes follow, and however
    they end, the identifier stays in the set and the events they add to
    the trace hold no query for it.  The final summary is not covered: it
    queries and reports every job once more. *)
Theorem completed_job_left_alone ids ci (s : state W) job_id fuel :
  job_id ∈ completed_jobs s →
  poll_job batch_client job_id s = (Ok (), s) ∧
  let s' := (while_pending batch_client time_passes fuel ids ci s).2 in
  job_id ∈ completed_jobs s' ∧
  ∃ t, out s' = out s ++ t ∧ job_id ∉ queried t.
Proof.
  intros Hin. split.
  - unfold poll_job, bind, get_completed. simpl.
    by rewrite bool_decide_true.
  - by apply (while_pending_leaves_alone job_id fuel ids ci s).
Qed.

(** ** A failed query ends the call *)

Lemma fails_last_refl (s : state W) o : fails_last s o s.
Proof. intros Hclean. destruct o; auto. Qed.

Lemma fails_last_trans (s1 s2 : state W) o s3 :
  fails_last s1 Returned s2 → fails_last s2 o s3 → fails_last s1 o s3.
Proof. intros H12 H23 Hclean. apply H23, H12, Hclean. Qed.

Ltac fails_last_step :=
  unfold fails_last; simpl; intros Hclean;
  rewrite ?failed_app, ?Hclean; simpl; try done; try (by left);
  try (right; eexists _, _; split; [reflexivity|done]).

Lemma print_fails_last line : respects (fails_last (W:=W)) (print line).
Proof. intros s. run. fails_last_step. Qed.

Lemma poll_job_fails_last job_id :
  respects fails_last (poll_job batch_client job_id).
Proof. intros s. run_cases; fails_last_step. Qed.

Lemma report_job_fails_last job_id :
  respects fails_last (report_job batch_client job_id).
Proof. intros s. run_cases; fails_last_step. Qed.

Lemma wait_for_jobs_completion_fails_last fuel ids ci :
  respects fails_last
    (wait_for_jobs_completion batch_client time_passes fuel ids ci).
Proof.
  pose proof (@fails_last_refl) as Hrefl.
  pose proof (@fails_last_trans) as Htrans.
  repeat (apply respects_bind; [done..| |intros _]).
  - apply print_fails_last.
  - apply print_fails_last.
  - intros s. run. fails_last_step.
  - apply respects_while_pending; [done..| | |].
    + intros s. run. fails_last_step.
    + intros job_id _. apply poll_job_fails_last.
    + intros s. run_cases; fails_last_step.
  - apply print_fails_last.
  - apply print_fails_last.
  - apply respects_for_each; [done..|].
    intros job_id _. apply report_job_fails_last.
Qed.

(** C7. When a query of the provider raises [e], the call ends with [e]
    itself, and the failed query is the last event of its trace: nothing
    is queried, printed or slept after it, and no query before it had
    failed. *)
Theorem provider_error_propagates fuel ids ci (w : W) job_id e :
  (job_id, e) ∈
    failed (out (wait_for_jobs_completion batch_client time_passes fuel ids ci
                   (initial w)).2) →
  let r := wait_for_jobs_completion batch_client time_passes fuel ids ci
             (initial w) in
  r.1 = Raise e ∧
  ∃ t, out r.2 = t ++ [EvDescribe job_id (inl e)] ∧ failed t = [].
Proof.
  intros Hin r. fold r in Hin.
  pose proof (wait_for_jobs_completion_fails_last fuel ids ci (initial w)
                eq_refl) as Hlast.
  fold r in Hlast. destruct r.1 as [[]|e'|] eqn:Hr; simpl in Hlast;
    try (rewrite Hlast in Hin; by apply elem_of_nil in Hin).
  destruct Hlast as [Hnone|(t & other & Hout & Ht)].
  { rewrite Hnone in Hin. by apply elem_of_nil in Hin. }
  rewrite Hout, failed_app, Ht in Hin. simpl in Hin.
  apply list_elem_of_singleton in Hin. injection Hin as -> ->.
  split; [done|]. by exists t.
Qed.

(** ** The final summary *)

Lemma report_job_trace job_id (s s' : state W) :
  report_job batch_client job_id s = (Ok (), s') →
  ∃ jobs, out s' = out s ++ summary_events job_id jobs ∧
          (batch_client (world s) job_id).1 = inr jobs.
Proof.
  run. destruct (batch_client (world s) job_id) as [[e|[|j js]] w']; simpl;
    try discriminate.
  destruct (j !! "jobName") as [name|] eqn:Hname; simpl; try discriminate.
  destruct (j !! "status") as [status|] eqn:Hstatus; simpl; try discriminate.
  intros [= <-]. exists (j :: js). simpl. split; [|done].
  unfold summary_events, status_line.
  by rewrite Hname, Hstatus, <- app_assoc.
Qed.

Lemma for_each_report_trace l (s s' : state W) :
  for_each l (report_job batch_client) s = (Ok (), s') →
  ∃ answers, length answers = length l ∧
             out s' = out s ++ concat (zip_with summary_events l answers).
Proof.
  revert s. induction l as [|job_id l IH]; intros s; simpl.
  - intros [= <-]. exists []. by rewrite app_nil_r.
  - unfold bind.
    destruct (report_job batch_client job_id s) as [[[]|e|] s1] eqn:Hrun;
      try discriminate.
    intros Hrest. apply report_job_trace in Hrun as (jobs & Hout & _).
    apply IH in Hrest as (answers & Hlen & Hout').
    exists (jobs :: answers). simpl. split; [by rewrite Hlen|].
    by rewrite Hout', Hout, <- !app_assoc.
Qed.

Lemma queried_summary l answers :
  length answers = length l →
  queried (concat (zip_with summary_events l answers)) = l.
Proof.
  revert answers. induction l as [|job_id l IH]; intros [|jobs answers] Hlen;
    try done.
  injection Hlen as Hlen. cbn [zip_with concat].
  by rewrite queried_app, IH.
Qed.

Lemma printed_summary l answers :
  length answers = length l →
  printed (concat (zip_with summary_events l answers)) = status_line <$> answers.
Proof.
  revert answers. induction l as [|job_id l IH]; intros [|jobs answers] Hlen;
    try done.
  injection Hlen as Hlen. cbn [zip_with concat].
  by rewrite printed_app, IH.
Qed.

Lemma slept_summary l answers :
  slept (concat (zip_with summary_events l answers)) = [].
Proof.
  revert answers. induction l as [|job_id l IH]; intros [|jobs answers];
    try done.
  cbn [zip_with concat]. by rewrite slept_app, IH.
Qed.

(** C3. When the call returns, the events after the exit of the polling
    loop are the two header lines and then, for each supplied identifier in
    the order supplied, one query of the provider followed by one line made
    from its answer.  So the identifiers queried there are the supplied
    list itself, every identifier is in it exactly once, there is one
    status line per job in the same order, and nothing is slept. *)
Theorem final_summary_in_order fuel ids ci (w : W) s' :
  wait_for_jobs_completion batch_client time_passes fuel ids ci (initial w)
    = (Ok (), s') →
  ∃ s1 answers,
    polling_phase batch_client time_passes fuel ids ci (initial w) = (Ok (), s1) ∧
    length answers = length ids ∧
    let t := concat (zip_with summary_events ids answers) in
    out s' = out s1
             ++ [EvPrint (nl +:+ " All " +:+ pretty (length ids)
                          +:+ " job(s) have completed!");
                 EvPrint (nl +:+ "Final Status Summary:")]
             ++ t ∧
    queried t = ids ∧
    NoDup ids ∧
    printed t = status_line <$> answers ∧
    slept t = [].
Proof.
  unfold wait_for_jobs_completion, bind at 1.
  destruct (polling_phase _ _ _ _ _ _) as [[[]|e|] s1] eqn:Hphase;
    try discriminate.
  unfold final_summary, bind at 1 2, print, emit. simpl.
  intros (answers & Hlen & Hout)%for_each_report_trace. simpl in Hout.
  exists s1, answers. split; [done|]. split; [done|]. simpl.
  split; [by rewrite Hout, <- !app_assoc|].
  split; [by apply queried_summary|].
  split; [|split; [by apply printed_summary|apply slept_summary]].
  destruct (decide (NoDup ids)) as [|Hdup]; [done|].
  pose proof (polling_phase_exit _ _ _ _ _ Hphase) as Hexit.
  pose proof (polling_phase_within fuel ids ci w) as Hsub.
  rewrite Hphase in Hsub. simpl in Hsub.
  by rewrite (pending_dup ids s1 Hdup Hsub) in Hexit.
Qed.

(** ** Terminal statuses *)

Lemma is_terminal_spec status :
  is_terminal status = true ↔ status = "SUCCEEDED" ∨ status = "FAILED".
Proof.
  unfold is_terminal. rewrite bool_decide_eq_true. set_solver.
Qed.

(** C6. A job that is not yet completed and whose answer carries the status
    FAILED is treated as one whose answer carries SUCCEEDED: the body of the
    polling loop returns normally, the identifier joins the completed set,
    and the trace gains the query and the line "Job <name> completed with
    status: <status>"; only for FAILED, and only when the answer has a
    [statusReason], a line with the reason follows.  The job is not
    retried: the body run again for it changes nothing. *)
Theorem terminal_status_recorded job_id (s : state W) j js w' name status :
  job_id ∉ completed_jobs s →
  batch_client (world s) job_id = (inr (j :: js), w') →
  j !! "jobName" = Some name →
  j !! "status" = Some status →
  status = "SUCCEEDED" ∨ status = "FAILED" →
  let reason_line :=
    if bool_decide (status = "FAILED") then
      match j !! "statusReason" with
      | Some reason => [EvPrint ("  Failure reason: " +:+ reason)]
      | None => []
      end
    else [] in
  let s' :=
    State w' ({[job_id]} ∪ completed_jobs s)
      (out s
       ++ [EvDescribe job_id (inr (j :: js));
           EvPrint ("Job " +:+ name +:+ " completed with status: " +:+ status)]
       ++ reason_line)
      (passes s) in
  poll_job batch_client job_id s = (Ok (), s') ∧
  poll_job batch_client job_id s' = (Ok (), s').
Proof.
  intros Hnew Hanswer Hname Hstatus Hterm reason_line s'.
  apply is_terminal_spec in Hterm. split.
  - subst s' reason_line. run. rewrite bool_decide_false by done.
    rewrite Hanswer. simpl. rewrite Hname. simpl. rewrite Hstatus. simpl.
    rewrite Hterm. rewrite bool_decide_true by done. simpl.
    case_bool_decide; simpl.
    + destruct (j !! "statusReason") as [reason|] eqn:Hreason; simpl;
        by rewrite <- !app_assoc.
    + by rewrite <- !app_assoc.
  - unfold poll_job, bind, get_completed. simpl.
    rewrite bool_decide_true by set_solver. done.
Qed.

(** ** No pause after a complete pass *)

Lemma pass_complete_no_sleep ids ci (s : state W) :
  pending ids (polling_pass batch_client time_passes ids ci s).2 = false →
  ∃ t, out (polling_pass batch_client time_passes ids ci s).2 = out s ++ t ∧
       slept t = [].
Proof.
  assert (respects (never_sleeps (W:=W)) (for_each ids (poll_job batch_client)))
    as Hquiet.
  { apply respects_for_each.
    - intros s0 o. exists []. by rewrite app_nil_r.
    - intros s1 s2 o s3 (t1 & Ht1 & Hs1) (t2 & Ht2 & Hs2).
      exists (t1 ++ t2). by rewrite Ht2, Ht1, app_assoc, slept_app, Hs1, Hs2.
    - intros job_id _ s0. unfold never_sleeps. run_cases; by new_events. }
  unfold polling_pass, bind. simpl.
  specialize (Hquiet (State (world s) (completed_jobs s) (out s) (S (passes s)))).
  destruct (for_each _ _ _) as [[[]|e|] s1]; destruct Hquiet as (t & Ht & Hs);
    simpl in Ht; [|by exists t..].
  unfold wait_if_pending. destruct (pending ids s1) eqn:Hpend.
  - run. case_bool_decide; simpl; unfold pending in *; simpl; congruence.
  - intros _. by exists t.
Qed.

Lemma while_pending_done fuel ids ci (s : state W) :
  pending ids s = false →
  while_pending batch_client time_passes fuel ids ci s = (Ok (), s).
Proof. intros Hdone. destruct fuel; simpl; by rewrite Hdone. Qed.

(** C5. A single job that the provider reports SUCCEEDED at the first
    query: whatever the fuel (one pass at least) and the interval, the call
    returns after exactly one pass, and its trace is the two opening lines,
    the query, the completion line, the two closing lines and the final
    query with its line; nothing is slept.  More generally, a pass after
    which the loop condition is false adds no pause to the trace. *)
Theorem single_job_already_succeeded job_id ci (w : W)
    j js w1 name j2 js2 w2 name2 status2 fuel :
  batch_client w job_id = (inr (j :: js), w1) →
  j !! "jobName" = Some name →
  j !! "status" = Some "SUCCEEDED" →
  batch_client w1 job_id = (inr (j2 :: js2), w2) →
  j2 !! "jobName" = Some name2 →
  j2 !! "status" = Some status2 →
  let r := wait_for_jobs_completion batch_client time_passes (S fuel)
             [job_id] ci (initial w) in
  r = (Ok (),
       State w2 {[job_id]}
         [EvPrint "Waiting for 1 job(s) to complete...";
          EvPrint ("This may take several minutes depending on the workload."
                   +:+ nl);
          EvDescribe job_id (inr (j :: js));
          EvPrint ("Job " +:+ name +:+ " completed with status: SUCCEEDED");
          EvPrint (nl +:+ " All 1 job(s) have completed!");
          EvPrint (nl +:+ "Final Status Summary:");
          EvDescribe job_id (inr (j2 :: js2));
          EvPrint ("  " +:+ name2 +:+ ": " +:+ status2)]
         1) ∧
  passes r.2 = 1 ∧
  slept (out r.2) = [] ∧
  ∀ ids (s : state W),
    pending ids (polling_pass batch_client time_passes ids ci s).2 = false →
    ∃ t, out (polling_pass batch_client time_passes ids ci s).2 = out s ++ t ∧
         slept t = [].
Proof.
  intros Hfirst Hname Hstatus Hsecond Hname2 Hstatus2 r.
  assert (r = (Ok (),
       State w2 {[job_id]}
         [EvPrint "Waiting for 1 job(s) to complete...";
          EvPrint ("This may take several minutes depending on the workload."
                   +:+ nl);
          EvDescribe job_id (inr (j :: js));
          EvPrint ("Job " +:+ name +:+ " completed with status: SUCCEEDED");
          EvPrint (nl +:+ " All 1 job(s) have completed!");
          EvPrint (nl +:+ "Final Status Summary:");
          EvDescribe job_id (inr (j2 :: js2));
          EvPrint ("  " +:+ name2 +:+ ": " +:+ status2)]
         1)) as Hr.
  { subst r. unfold wait_for_jobs_completion, polling_phase.
    unfold bind at 1 2. rewrite preamble_initial.
    cbn [while_pending]. unfold pending at 1. cbn [completed_jobs].
    rewrite size_empty. rewrite bool_decide_true by (simpl; lia).
    unfold bind at 1, polling_pass. unfold bind at 1, begin_pass.
    cbn [world completed_jobs out passes].
    unfold bind at 1. cbn [for_each]. unfold bind at 1.
    match goal with |- context [poll_job _ _ ?s0] =>
      destruct (terminal_status_recorded job_id s0 j js w1 name "SUCCEEDED")
        as [Hpoll _]; [set_solver|done..|by left|]
    end.
    rewrite Hpoll. cbn [world completed_jobs out passes].
    rewrite union_empty_r_L. unfold ret at 1, wait_if_pending.
    unfold pending at 1. cbn [completed_jobs].
    rewrite size_singleton. rewrite bool_decide_false by (simpl; lia).
    unfold ret at 1. rewrite while_pending_done
      by (unfold pending; cbn [completed_jobs]; rewrite size_singleton;
          apply bool_decide_eq_false; simpl; lia).
    unfold final_summary. cbn [for_each]. run.
    rewrite Hsecond. simpl. rewrite Hname2. simpl. by rewrite Hstatus2. }
  split; [done|]. rewrite Hr. split; [done|]. split; [done|].
  intros ids s. apply pass_complete_no_sleep.
Qed.

(** ** Enough fuel gives the result *)

Lemma while_pending_more fuel n ids ci (s : state W) r s' :
  while_pending batch_client time_passes fuel ids ci s = (r, s') →
  r ≠ OutOfFuel →
  while_pending batch_client time_passes (fuel + n) ids ci s = (r, s').
Proof.
  revert s. induction fuel as [|fuel IH]; intros s; simpl.
  - destruct (pending ids s) eqn:Hpend.
    + intros [= <- <-]. done.
    + intros Hrun _. by rewrite while_pending_done.
  - destruct (pending ids s); [|done]. unfold bind.
    destruct (polling_pass _ _ _ _ s) as [[[]|e|] s1]; try done. apply IH.
Qed.

Lemma wait_for_jobs_completion_more fuel n ids ci (s : state W) r s' :
  wait_for_jobs_completion batch_client time_passes fuel ids ci s = (r, s') →
  r ≠ OutOfFuel →
  wait_for_jobs_completion batch_client time_passes (fuel + n) ids ci s
  = (r, s').
Proof.
  unfold wait_for_jobs_completion, polling_phase, bind.
  destruct (preamble ids s) as [[[]|e|] s0]; try done.
  destruct (while_pending _ _ fuel _ _ s0) as [[[]|e|] s1] eqn:Hloop.
  - intros Hfinal Hr.
    by rewrite (while_pending_more fuel n ids ci s0 _ _ Hloop).
  - intros [= <- <-] _.
    by rewrite (while_pending_more fuel n ids ci s0 _ _ Hloop).
  - by intros [= <- <-].
Qed.

End Facts.

(** ** The scripted provider *)

Lemma scripted_run :
  scripted_wait 2 three_jobs default_check_interval (initial 0)
  = (Ok (), State 1 (list_to_set three_jobs) scripted_trace 2).
Proof. vm_compute. reflexivity. Qed.

(** C4. Three jobs, the provider reporting RUNNING, RUNNING, SUCCEEDED
    before the first pause and SUCCEEDED, FAILED with reason OOM, SUCCEEDED
    after it.  With fuel for two passes or more the call returns after
    exactly two passes and one pause; fuel for one pass is not enough.  Its
    trace is [scripted_trace]: the third job is completed in the first pass
    and not queried in the second, the line with the reason OOM follows the
    completion line of the second job, and the final summary reads
    SUCCEEDED, FAILED, SUCCEEDED in the order of submission. *)
Theorem three_jobs_two_passes :
  (∀ fuel,
     scripted_wait (2 + fuel) three_jobs default_check_interval (initial 0)
     = (Ok (), State 1 (list_to_set three_jobs) scripted_trace 2)) ∧
  (scripted_wait 1 three_jobs default_check_interval (initial 0)).1
  = OutOfFuel ∧
  slept scripted_trace = [60%Z] ∧
  queried scripted_trace
  = ["job-1"; "job-2"; "job-3"; "job-1"; "job-2"; "job-1"; "job-2"; "job-3"] ∧
  printed (drop 18 scripted_trace) =
    ["  progen2-1: SUCCEEDED"; "  progen2-2: FAILED"; "  progen2-3: SUCCEEDED"] ∧
  take 3 (drop 13 scripted_trace) =
    [EvDescribe "job-2" (inr [describe "progen2-2" "FAILED" (Some "OOM")]);
     EvPrint "Job progen2-2 completed with status: FAILED";
     EvPrint "  Failure reason: OOM"].
Proof.
  split; [|split; [|split; [|split; [|split]]]].
  - intros fuel. apply wait_for_jobs_completion_more; [|done].
    apply scripted_run.
  - vm_compute. reflexivity.
  - vm_compute. reflexivity.
  - vm_compute. reflexivity.
  - vm_compute. reflexivity.
  - reflexivity.
Qed.

Lemma scripted_evolves w w' :
  evolves scripted_client scripted_clock w w' → w ≤ w'.
Proof. induction 1; unfold scripted_client, scripted_clock in *; simpl in *; lia. Qed.

Lemma scripted_settled w :
  1 ≤ w → settled scripted_client scripted_clock three_jobs w.
Proof.
  intros Hw w' Hev%scripted_evolves job_id Hin.
  destruct w' as [|n]; [lia|]. unfold three_jobs in Hin.
  repeat (apply elem_of_cons in Hin as [->|Hin]);
    [..|by apply elem_of_nil in Hin];
    eexists _, _, _, _; repeat split; vm_compute; reflexivity.
Qed.

Lemma three_jobs_distinct : NoDup three_jobs.
Proof. apply (bool_decide_unpack _). vm_compute. exact I. Qed.

Lemma after_first_pass_head :
  loop_head scripted_client scripted_clock three_jobs default_check_interval
    0 after_first_pass.
Proof.
  eapply after_passes_step; [| |apply after_passes_refl].
  - vm_compute. reflexivity.
  - vm_compute. reflexivity.
Qed.

Lemma tracker_terminates_witness :
  NoDup three_jobs ∧
  loop_head scripted_client scripted_clock three_jobs default_check_interval
    0 after_first_pass ∧
  settled scripted_client scripted_clock three_jobs (world after_first_pass) ∧
  ∃ s',
    (∀ fuel, passes after_first_pass < fuel →
       scripted_wait fuel three_jobs default_check_interval (initial 0)
       = (Ok (), s')) ∧
    passes s' ≤ S (passes after_first_pass) ∧
    (three_jobs = [] →
       ∀ fuel,
         scripted_wait fuel three_jobs default_check_interval (initial 0)
         = (Ok (), s') ∧
         queried (out s') = [] ∧ slept (out s') = [] ∧ passes s' = 0).
Proof.
  assert (settled scripted_client scripted_clock three_jobs
            (world after_first_pass)) as Hset.
  { apply scripted_settled. vm_compute. lia. }
  split; [exact three_jobs_distinct|].
  split; [exact after_first_pass_head|].
  split; [exact Hset|].
  exact (tracker_terminates scripted_client scripted_clock three_jobs
           default_check_interval 0 after_first_pass
           three_jobs_distinct after_first_pass_head Hset).
Defined.

Lemma repeated_job_never_returns :
  settled scripted_client scripted_clock ["job-1"; "job-1"] 1 ∧
  ¬ ∃ fuel s',
      scripted_wait fuel ["job-1"; "job-1"] default_check_interval (initial 1)
      = (Ok (), s').
Proof.
  split.
  - eapply settled_sublist; [|by apply scripted_settled].
    unfold three_jobs. set_solver.
  - intros (fuel & s' & Hrun).
    destruct (duplicates_outcome scripted_client scripted_clock
                ["job-1"; "job-1"] default_check_interval 1 fuel) as [Hne _].
    + rewrite NoDup_cons. intros [Hnew _]. apply Hnew. by left.
    + rewrite Hrun in Hne. by apply Hne.
Qed.

Lemma completed_job_left_alone_witness :
  "job-3" ∈ completed_jobs after_first_pass ∧
  poll_job scripted_client "job-3" after_first_pass = (Ok (), after_first_pass) ∧
  let s' := (while_pending scripted_client scripted_clock 1 three_jobs
               default_check_interval after_first_pass).2 in
  "job-3" ∈ completed_jobs s' ∧
  ∃ t, out s' = out after_first_pass ++ t ∧ "job-3" ∉ queried t.
Proof.
  assert ("job-3" ∈ completed_jobs after_first_pass) as Hin.
  { apply (bool_decide_unpack _). vm_compute. exact I. }
  split; [exact Hin|].
  exact (completed_job_left_alone scripted_client scripted_clock three_jobs
           default_check_interval after_first_pass "job-3" 1 Hin).
Defined.

(** Against C2 as stated: a single job that is SUCCEEDED at once.  When
    the polling loop exits the job is in the completed set and was queried
    once; the rest of the call queries it again. *)
Lemma final_summary_queries_again :
  (polling_phase scripted_client scripted_clock 1 ["job-3"]
     default_check_interval (initial 0)).1 = Ok () ∧
  "job-3" ∈ completed_jobs
    (polling_phase scripted_client scripted_clock 1 ["job-3"]
       default_check_interval (initial 0)).2 ∧
  ∃ t,
    out (scripted_wait 1 ["job-3"] default_check_interval (initial 0)).2
    = out (polling_phase scripted_client scripted_clock 1 ["job-3"]
             default_check_interval (initial 0)).2 ++ t ∧
    "job-3" ∈ queried t.
Proof.
  split; [vm_compute; reflexivity|].
  split; [apply (bool_decide_unpack _); vm_compute; exact I|].
  exists [EvPrint (nl +:+ " All 1 job(s) have completed!");
          EvPrint (nl +:+ "Final Status Summary:");
          EvDescribe "job-3" (inr [describe "progen2-3" "SUCCEEDED" None]);
          EvPrint "  progen2-3: SUCCEEDED"].
  split; [vm_compute; reflexivity|].
  apply (bool_decide_unpack _). vm_compute. exact I.
Qed.

Lemma final_summary_in_order_witness :
  scripted_wait 2 three_jobs default_check_interval (initial 0)
  = (Ok (), State 1 (list_to_set three_jobs) scripted_trace 2) ∧
  ∃ s1 answers,
    polling_phase scripted_client scripted_clock 2 three_jobs
      default_check_interval (initial 0) = (Ok (), s1) ∧
    length answers = length three_jobs ∧
    let t := concat (zip_with summary_events three_jobs answers) in
    out (State 1 (list_to_set three_jobs) scripted_trace 2)
    = out s1
      ++ [EvPrint (nl +:+ " All " +:+ pretty (length three_jobs)
                   +:+ " job(s) have completed!");
          EvPrint (nl +:+ "Final Status Summary:")]
      ++ t ∧
    queried t = three_jobs ∧
    NoDup three_jobs ∧
    printed t = status_line <$> answers ∧
    slept t = [].
Proof.
  split; [exact scripted_run|].
  exact (final_summary_in_order scripted_client scripted_clock 2 three_jobs
           default_check_interval 0 _ scripted_run).
Defined.

Lemma single_job_already_succeeded_witness :
  scripted_client 0 "job-3" = (inr [describe "progen2-3" "SUCCEEDED" None], 0) ∧
  describe "progen2-3" "SUCCEEDED" None !! "jobName" = Some "progen2-3" ∧
  describe "progen2-3" "SUCCEEDED" None !! "status" = Some "SUCCEEDED" ∧
  let r := scripted_wait 1 ["job-3"] default_check_interval (initial 0) in
  r = (Ok (),
       State 0 {["job-3"]}
         [EvPrint "Waiting for 1 job(s) to complete...";
          EvPrint ("This may take several minutes depending on the workload."
                   +:+ nl);
          EvDescribe "job-3" (inr [describe "progen2-3" "SUCCEEDED" None]);
          EvPrint ("Job " +:+ "progen2-3" +:+ " completed with status: SUCCEEDED");
          EvPrint (nl +:+ " All 1 job(s) have completed!");
          EvPrint (nl +:+ "Final Status Summary:");
          EvDescribe "job-3" (inr [describe "progen2-3" "SUCCEEDED" None]);
          EvPrint ("  " +:+ "progen2-3" +:+ ": " +:+ "SUCCEEDED")]
         1) ∧
  passes r.2 = 1 ∧
  slept (out r.2) = [] ∧
  ∀ ids (s : state nat),
    pending ids (polling_pass scripted_client scripted_clock ids
                   default_check_interval s).2 = false →
    ∃ t, out (polling_pass scripted_client scripted_clock ids
                default_check_interval s).2 = out s ++ t ∧
         slept t = [].
Proof.
  pose (j := describe "progen2-3" "SUCCEEDED" None).
  assert (scripted_client 0 "job-3" = (inr [j], 0)) as Hanswer
    by (vm_compute; reflexivity).
  assert (j !! "jobName" = Some "progen2-3") as Hname
    by (vm_compute; reflexivity).
  assert (j !! "status" = Some "SUCCEEDED") as Hstatus
    by (vm_compute; reflexivity).
  split; [exact Hanswer|]. split; [exact Hname|]. split; [exact Hstatus|].
  exact (single_job_already_succeeded scripted_client scripted_clock
           "job-3" default_check_interval 0 j [] 0 "progen2-3" j [] 0
           "progen2-3" "SUCCEEDED" 0
           Hanswer Hname Hstatus Hanswer Hname Hstatus).
Defined.

Lemma terminal_status_recorded_witness :
  ("job-2" ∉ completed_jobs (initial 1)) ∧
  scripted_client (world (initial 1)) "job-2" = (inr [describe "progen2-2" "FAILED" (Some "OOM")], 1) ∧
  describe "progen2-2" "FAILED" (Some "OOM") !! "jobName" = Some "progen2-2" ∧
  describe "progen2-2" "FAILED" (Some "OOM") !! "status" = Some "FAILED" ∧
  ("FAILED" = "SUCCEEDED" ∨ "FAILED" = "FAILED") ∧
  let reason_line :=
    if bool_decide ("FAILED" = "FAILED") then
      match describe "progen2-2" "FAILED" (Some "OOM") !! "statusReason" with
      | Some reason => [EvPrint ("  Failure reason: " +:+ reason)]
      | None => []
      end
    else [] in
  let s' :=
    State 1 ({["job-2"]} ∪ completed_jobs (initial 1))
      (out (initial 1)
       ++ [EvDescribe "job-2" (inr [describe "progen2-2" "FAILED" (Some "OOM")]);
           EvPrint ("Job " +:+ "progen2-2" +:+ " completed with status: "
                    +:+ "FAILED")]
       ++ reason_line)
      (passes (initial 1)) in
  poll_job scripted_client "job-2" (initial 1) = (Ok (), s') ∧
  poll_job scripted_client "job-2" s' = (Ok (), s').
Proof.
  pose (j := describe "progen2-2" "FAILED" (Some "OOM")).
  assert ("job-2" ∉ completed_jobs (initial 1)) as Hnew
    by (simpl; apply not_elem_of_empty).
  assert (scripted_client (world (initial 1)) "job-2" = (inr [j], 1)) as Hanswer
    by (vm_compute; reflexivity).
  assert (j !! "jobName" = Some "progen2-2") as Hname
    by (vm_compute; reflexivity).
  assert (j !! "status" = Some "FAILED") as Hstatus
    by (vm_compute; reflexivity).
  split; [exact Hnew|]. split; [exact Hanswer|]. split; [exact Hname|].
  split; [exact Hstatus|]. split; [by right|].
  exact (terminal_status_recorded scripted_client scripted_clock "job-2"
           (initial 1)
           j [] 1 "progen2-2" "FAILED" Hnew Hanswer Hname Hstatus
           (or_intror eq_refl)).
Defined.

Lemma provider_error_propagates_witness :
  ("job-9", ClientError "unknown job") ∈
    failed (out (scripted_wait 3 ["job-3"; "job-9"; "job-1"]
                   default_check_interval (initial 0)).2) ∧
  let r := scripted_wait 3 ["job-3"; "job-9"; "job-1"] default_check_interval
             (initial 0) in
  r.1 = Raise (ClientError "unknown job") ∧
  ∃ t, out r.2 = t ++ [EvDescribe "job-9" (inl (ClientError "unknown job"))] ∧
       failed t = [].
Proof.
  assert (("job-9", ClientError "unknown job") ∈
            failed (out (scripted_wait 3 ["job-3"; "job-9"; "job-1"]
                           default_check_interval (initial 0)).2)) as Hin.
  { vm_compute. apply list_elem_of_here. }
  split; [exact Hin|].
  exact (provider_error_propagates scripted_client scripted_clock 3
           ["job-3"; "job-9"; "job-1"] default_check_interval 0
           "job-9" (ClientError "unknown job") Hin).
Defined.

Lemma completed_grows_bounded_witness :
  loop_head scripted_client scripted_clock three_jobs default_check_interval
    0 after_first_pass ∧
  let s' := (while_pending scripted_client scripted_clock 1 three_jobs
               default_check_interval after_first_pass).2 in
  completed_jobs after_first_pass ⊆ completed_jobs s' ∧
  size (completed_jobs after_first_pass) ≤ size (completed_jobs s') ∧
  size (completed_jobs s') ≤ length (remove_dups three_jobs) ∧
  completed_jobs after_first_pass
  ⊆ completed_jobs (poll_job scripted_client "job-1" after_first_pass).2.
Proof.
  split; [exact after_first_pass_head|].
  exact (completed_grows_bounded scripted_client scripted_clock three_jobs
           default_check_interval 0 after_first_pass 1 after_first_pass
           "job-1" after_first_pass_head).
Defined.



End TrackerProofs.

(** * Properties of the inference script *)
Module InferenceProofs.
Import Lab2.

Section Facts.

Context {Tensor Output Device : Type}.
Variable json_loads : string → exn + json.
Variable repr : json → string.
Variable tensor_to : Tensor → Device → exn + Tensor.


Lemma inferences_app (t1 t2 : list (event (Tensor:=Tensor))) :
  inferences (t1 ++ t2) = inferences t1 ++ inferences t2.
Proof. apply bind_app. Qed.


End Facts.


End InferenceProofs.

(** * Further properties of the tracker *)
Module TrackerMore.
Import Lab1 Lab1Spec TrackerProofs.

#[local] Set Warnings "-clear-no-such-hyp".

Lemma unreadable_app t1 t2 :
  unreadable (t1 ++ t2) = unreadable t1 ++ unreadable t2.
Proof. apply bind_app. Qed.

(** ** Lifting a relation that need not hold of a bare [raise] *)
Section Lift.

Context {W : Type}.
Variable R : state W → outcome → state W → Prop.
Hypothesis R_ret : ∀ s, R s Returned s.
Hypothesis R_run : ∀ s, R s Running s.
Hypothesis R_trans : ∀ s1 s2 o s3, R s1 Returned s2 → R s2 o s3 → R s1 o s3.

Lemma lift_bind {A B} (m : M W A) (k : A → M W B) :
  respects R m → (∀ a, respects R (k a)) → respects R (bind m k).
Proof.
  intros Hm Hk s. unfold bind. specialize (Hm s).
  destruct (m s) as [[a|e|] s1]; simpl in *; [|done..].
  eapply R_trans; [exact Hm|apply Hk].
Qed.

Lemma lift_for_each {A} (l : list A) (body : A → M W unit) :
  (∀ x, x ∈ l → respects R (body x)) → respects R (for_each l body).
Proof.
  induction l as [|x l IH]; intros Hbody; simpl.
  - intros s. apply R_ret.
  - apply lift_bind.
    + apply Hbody. by left.
    + intros _. apply IH. intros y Hy. apply Hbody. by right.
Qed.

Variable batch_client : W → string → (exn + list job) * W.
Variable time_passes : W → Z → W.
Variables (ids : list string) (ci : Z).

Hypothesis R_print : ∀ line, respects R (print line).
Hypothesis R_reset : respects R reset_completed.
Hypothesis R_begin : respects R begin_pass.
Hypothesis R_poll : ∀ job_id,
  job_id ∈ ids → respects R (poll_job batch_client job_id).
Hypothesis R_report : ∀ job_id,
  job_id ∈ ids → respects R (report_job batch_client job_id).
Hypothesis R_wait : respects R (wait_if_pending time_passes ids ci).

Lemma lift_while_pending fuel :
  respects R (while_pending batch_client time_passes fuel ids ci).
Proof.
  induction fuel as [|fuel IH]; intros s; simpl.
  - destruct (pending ids s); [apply R_run|apply R_ret].
  - destruct (pending ids s); [|apply R_ret].
    apply lift_bind; [|done]. unfold polling_pass.
    apply lift_bind; [done|intros _].
    apply lift_bind; [|done]. by apply lift_for_each.
Qed.

Lemma lift_polling_phase fuel :
  respects R (polling_phase batch_client time_passes fuel ids ci).
Proof.
  unfold polling_phase, preamble.
  repeat (apply lift_bind; [done|intros _]).
  apply lift_bind; [repeat (apply lift_bind; [done|intros _]); done|intros _].
  apply lift_while_pending.
Qed.

Lemma lift_wait_for_jobs_completion fuel :
  respects R (wait_for_jobs_completion batch_client time_passes fuel ids ci).
Proof.
  unfold wait_for_jobs_completion.
  apply lift_bind; [apply lift_polling_phase|intros _].
  unfold final_summary. repeat (apply lift_bind; [done|intros _]).
  by apply lift_for_each.
Qed.

End Lift.

Section More.

Context {W : Type}.
Variable batch_client : W → string → (exn + list job) * W.
Variable time_passes : W → Z → W.

(** ** A normal return means that every job was seen terminal *)

Lemma observed_terminal_app job_id t1 t2 :
  observed_terminal job_id t1 → observed_terminal job_id (t1 ++ t2).
Proof. intros (a & Hin & Hterm). exists a. split; [set_solver|done]. Qed.

Ltac keep_observed :=
  let Hinv := fresh "Hinv" in
  let Hin := fresh "Hin" in
  intros Hinv ? Hin; simpl in *;
  try (apply elem_of_union in Hin as [->%elem_of_singleton|Hin]);
  [..|repeat apply observed_terminal_app; by apply Hinv].

Lemma poll_job_completed_observed job_id :
  respects completed_observed (poll_job batch_client job_id).
Proof.
  intros s. run_cases; unfold completed_observed; keep_observed.
  all: match goal with H : batch_client _ _ = (?a, _) |- _ => exists a end;
    (split; [set_solver|]).
  all: simpl;
    repeat match goal with H : _ !! _ = Some _ |- _ => rewrite H; clear H end;
    simpl; done.
Qed.

Lemma polling_phase_completed_observed fuel ids ci :
  respects completed_observed
    (polling_phase batch_client time_passes fuel ids ci).
Proof.
  apply lift_polling_phase.
  - by intros s Hinv.
  - by intros s Hinv.
  - intros s1 s2 o s3 H12 H23 Hinv. apply H23, H12, Hinv.
  - intros line s. run. unfold completed_observed. keep_observed.
  - intros s. run. unfold completed_observed. intros _ job_id Hin.
    simpl in Hin. by apply not_elem_of_empty in Hin.
  - intros s. run. unfold completed_observed. keep_observed.
  - intros job_id _. apply poll_job_completed_observed.
  - intros s. run_cases; unfold completed_observed; keep_observed.
Qed.

(** X1. A call that returns left the polling loop with every supplied
    identifier in the completed set, and for each of them the trace of the
    loop holds a query that the provider answered with a named job in status
    SUCCEEDED or FAILED: the function never returns on a job it did not see
    finish. *)
Theorem returns_only_when_all_observed fuel ids ci (w : W) s' :
  wait_for_jobs_completion batch_client time_passes fuel ids ci (initial w)
    = (Ok (), s') →
  ∃ s1,
    polling_phase batch_client time_passes fuel ids ci (initial w)
      = (Ok (), s1) ∧
    completed_jobs s1 = list_to_set ids ∧
    ∀ job_id, job_id ∈ ids → observed_terminal job_id (out s1).
Proof.
  unfold wait_for_jobs_completion, bind at 1.
  destruct (polling_phase _ _ _ _ _ _) as [[[]|e|] s1] eqn:Hphase;
    try discriminate.
  intros _. exists s1. split; [done|].
  assert (completed_jobs s1 = list_to_set ids) as Hall.
  { pose proof (polling_phase_within batch_client time_passes fuel ids ci w)
      as Hsub.
    rewrite Hphase in Hsub. simpl in Hsub.
    apply set_subseteq_size_eq; [done|].
    pose proof (polling_phase_exit _ _ _ _ _ _ _ Hphase) as Hexit.
    apply bool_decide_eq_false in Hexit.
    pose proof (size_list_to_set_le ids). lia. }
  split; [done|]. intros job_id Hin.
  pose proof (polling_phase_completed_observed fuel ids ci (initial w)) as Hobs.
  rewrite Hphase in Hobs. simpl in Hobs. apply Hobs.
  - intros other Hother. by apply not_elem_of_empty in Hother.
  - rewrite Hall. by apply elem_of_list_to_set.
Qed.

(** ** Answers that cannot be read *)

Lemma unreadable_elem job_id a e t :
  EvDescribe job_id a ∈ t → answer_exn a = Some e → (job_id, e) ∈ unreadable t.
Proof.
  intros Hin Ha. apply list_elem_of_bind. exists (EvDescribe job_id a).
  split; [|done]. rewrite Ha. apply list_elem_of_here.
Qed.

Ltac read_answer :=
  simpl;
  repeat match goal with H : _ !! _ = _ |- _ => rewrite H end;
  simpl.

Ltac unreadable_step :=
  unfold stops_at_unreadable; simpl;
  let Hclean := fresh "Hclean" in
  intros Hclean;
  try match goal with H : is_Some None |- _ => by destruct H end;
  rewrite ?unreadable_app, ?Hclean; read_answer; try done;
  try (right; eexists _, _, _; split; [reflexivity|]; split; [|done];
       by read_answer).

Lemma poll_job_stops_at_unreadable ci job_id :
  respects (stops_at_unreadable ci) (poll_job batch_client job_id).
Proof. intros s. run_cases; unreadable_step. Qed.

Lemma report_job_stops_at_unreadable ci job_id :
  respects (stops_at_unreadable ci) (report_job batch_client job_id).
Proof. intros s. run_cases; unreadable_step. Qed.

Lemma wait_for_jobs_completion_stops_at_unreadable fuel ids ci :
  respects (stops_at_unreadable ci)
    (wait_for_jobs_completion batch_client time_passes fuel ids ci).
Proof.
  apply lift_wait_for_jobs_completion.
  - by intros s Hclean.
  - by intros s Hclean.
  - intros s1 s2 o s3 H12 H23 Hclean. apply H23, H12, Hclean.
  - intros line s. run. unreadable_step.
  - intros s. run. unreadable_step.
  - intros s. run. unreadable_step.
  - intros job_id _. apply poll_job_stops_at_unreadable.
  - intros job_id _. apply report_job_stops_at_unreadable.
  - intros s. run_cases; unreadable_step. by left.
Qed.

(** X2. When the provider answers a query with something the tracker
    cannot read (an exception of the client, an empty list of jobs, a
    first job without [jobName] or without [status]), the call ends with the
    matching exception ([IndexError] for the empty list, [KeyError] for the
    missing key) and that query is the last event of the trace: nothing is
    printed, queried or slept after it. *)
Theorem unreadable_answer_aborts fuel ids ci (w : W) job_id a e :
  EvDescribe job_id a ∈
    out (wait_for_jobs_completion batch_client time_passes fuel ids ci
           (initial w)).2 →
  answer_exn a = Some e →
  let r := wait_for_jobs_completion batch_client time_passes fuel ids ci
             (initial w) in
  r.1 = Raise e ∧
  ∃ t, out r.2 = t ++ [EvDescribe job_id a] ∧ unreadable t = [].
Proof.
  intros Hin Ha r. fold r in Hin.
  pose proof (wait_for_jobs_completion_stops_at_unreadable fuel ids ci
                (initial w) eq_refl) as Hlast.
  fold r in Hlast.
  pose proof (unreadable_elem _ _ _ _ Hin Ha) as Hbad.
  destruct r.1 as [[]|e'|] eqn:Hr; simpl in Hlast;
    try (rewrite Hlast in Hbad; by apply elem_of_nil in Hbad).
  destruct Hlast as [(Hnone & _)|(t & other & a' & Hout & Ha' & Ht)].
  { rewrite Hnone in Hbad. by apply elem_of_nil in Hbad. }
  rewrite Hout in Hin. apply elem_of_app in Hin as [Hin|Hin].
  { pose proof (unreadable_elem _ _ _ _ Hin Ha) as Hbad'.
    rewrite Ht in Hbad'. by apply elem_of_nil in Hbad'. }
  apply list_elem_of_singleton in Hin. injection Hin as -> ->.
  split; [congruence|]. by exists t.
Qed.


(** ** Queries and pauses of the loop bodies *)

Ltac new_events :=
  first
    [ exists []; split; [by rewrite app_nil_r|]
    | rewrite <- ?app_assoc; eexists; split; [reflexivity|] ];
  simpl.

Ltac calm_step :=
  split; [done|]; split; [done|]; split; [simpl; set_solver|];
  new_events; split; [done|]; split; [simpl; lia|]; set_solver.

Lemma poll_job_calm job_id : calm 1 [job_id] (poll_job batch_client job_id).
Proof. intros s. run_cases; calm_step. Qed.

Lemma report_job_calm job_id : calm 1 [job_id] (report_job batch_client job_id).
Proof. intros s. run_cases; calm_step. Qed.

Lemma print_calm (line : string) ids : calm (W:=W) 0 ids (print line).
Proof. intros s. run. calm_step. Qed.

Lemma for_each_calm (body : string → M W unit) l :
  (∀ job_id, calm 1 [job_id] (body job_id)) →
  calm (length l) l (for_each l body).
Proof.
  intros Hbody. induction l as [|job_id l IH]; intros s; simpl.
  - do 3 (split; [done|]). exists []. rewrite app_nil_r.
    do 3 (split; [done|]). set_solver.
  - unfold bind.
    destruct (Hbody job_id s) as (Hr & Hp & Hc & t & Ht & Hs & Hn & Hq).
    destruct (body job_id s) as [[[]|e|] s1]; simpl in *; [| |done].
    + destruct (IH s1) as (Hr' & Hp' & Hc' & t' & Ht' & Hs' & Hn' & Hq').
      split; [done|]. split; [congruence|]. split; [set_solver|].
      exists (t ++ t'). rewrite Ht', Ht, app_assoc. split; [done|].
      rewrite slept_app, queried_app, Hs, Hs', length_app.
      split; [done|]. split; [lia|]. set_solver.
    + split; [done|]. split; [done|]. split; [done|].
      exists t. split; [done|]. split; [done|]. split; [lia|]. set_solver.
Qed.

Lemma while_pending_negative fuel ids ci (s : state W) r1 s1 :
  (ci < 0)%Z →
  while_pending batch_client time_passes (S fuel) ids ci s = (r1, s1) →
  r1 ≠ OutOfFuel ∧ passes s1 ≤ S (passes s) ∧
  ∃ t, out s1 = out s ++ t ∧ slept t = [].
Proof.
  intros Hci. simpl. destruct (pending ids s) eqn:Hpend.
  2:{ intros [= <- <-]. split; [done|]. split; [lia|].
      exists []. by rewrite app_nil_r. }
  unfold bind at 1, polling_pass, bind at 1. simpl. unfold bind at 1.
  match goal with |- context [for_each _ _ ?s0] =>
    destruct (for_each_calm (poll_job batch_client) ids poll_job_calm s0)
      as (Hr & Hp & _ & t & Ht & Hs & _);
    destruct (for_each ids (poll_job batch_client) s0) as [[[]|e|] s2]
  end; simpl in *; [| |done].
  - unfold wait_if_pending. destruct (pending ids s2) eqn:Hpend2.
    + run. rewrite bool_decide_true by done. simpl. intros [= <- <-]. simpl.
      split; [done|]. split; [lia|]. rewrite Ht, <- app_assoc.
      eexists. split; [done|]. by rewrite slept_app, Hs.
    + unfold ret at 1. rewrite while_pending_done by done.
      intros [= <- <-]. split; [done|]. split; [lia|]. by exists t.
  - intros [= <- <-]. split; [done|]. split; [lia|]. by exists t.
Qed.

(** X4. With a negative interval the tracker never waits: whatever the
    provider answers, a call with fuel for one pass ends, by a return or an
    exception, after at most one pass and without any pause. *)
Theorem negative_interval_single_pass fuel ids ci (w : W) :
  (ci < 0)%Z →
  let r := wait_for_jobs_completion batch_client time_passes (S fuel) ids ci
             (initial w) in
  r.1 ≠ OutOfFuel ∧ passes r.2 ≤ 1 ∧ slept (out r.2) = [].
Proof.
  intros Hci r. destruct r as [r2 s2] eqn:Hrun. subst r. revert Hrun.
  unfold wait_for_jobs_completion, polling_phase, bind at 1 2.
  rewrite preamble_initial.
  match goal with |- context [while_pending _ _ _ _ _ ?s] =>
    destruct (while_pending batch_client time_passes (S fuel) ids ci s)
      as [r1 s1] eqn:Hloop;
    destruct (while_pending_negative fuel ids ci s r1 s1 Hci Hloop)
      as (Hr1 & Hp1 & t1 & Ht1 & Hs1)
  end.
  cbn [out passes] in *.
  destruct r1 as [[]|e|]; [| |done].
  - unfold final_summary, bind at 1 2, print, emit.
    match goal with |- context [for_each _ _ ?s] =>
      destruct (for_each_calm (report_job batch_client) ids report_job_calm s)
        as (Hr & Hp & _ & t & Ht & Hs & _)
    end.
    cbn [out passes] in *. intros Hrun. rewrite Hrun in *.
    cbn [fst snd] in *. split; [done|]. split; [lia|].
    rewrite Ht, Ht1, !slept_app, Hs1, Hs. done.
  - intros [= <- <-]. cbn [fst snd]. split; [done|]. split; [lia|].
    rewrite Ht1, slept_app, Hs1. done.
Qed.

(** ** One pause between consecutive passes *)

Lemma while_pending_sleeps fuel ids ci (s : state W) r1 s1 :
  slept (out s) = replicate (passes s) ci →
  while_pending batch_client time_passes fuel ids ci s = (r1, s1) →
  ∃ k, slept (out s1) = replicate k ci ∧
       k ≤ passes s1 ∧
       (r1 = OutOfFuel → k = passes s1) ∧
       (r1 = Ok () →
        k = passes s1 - 1 ∨ (pending ids s = false ∧ s1 = s ∧ k = passes s)).
Proof.
  revert s. induction fuel as [|fuel IH]; intros s Hinv; simpl;
    destruct (pending ids s) eqn:Hpend;
    try (intros [= <- <-]; exists (passes s);
         split; [done|]; split; [done|]; split; [done|];
         (discriminate || by right)).
  unfold bind at 1, polling_pass, bind at 1. simpl. unfold bind at 1.
  match goal with |- context [for_each _ _ ?s0] =>
    destruct (for_each_calm (poll_job batch_client) ids poll_job_calm s0)
      as (Hr & Hp & _ & t & Ht & Hs & _);
    destruct (for_each ids (poll_job batch_client) s0) as [[[]|e|] s2]
  end; simpl in *; [| |done].
  - unfold wait_if_pending. destruct (pending ids s2) eqn:Hpend2.
    + run. case_bool_decide; simpl.
      * intros [= <- <-]. exists (passes s). simpl.
        rewrite slept_app, Ht, slept_app, Hinv, Hs. simpl.
        rewrite !app_nil_r. split; [done|]. split; [lia|]. done.
      * intros Hrest. apply IH in Hrest as (k & Hk & Hle & Hfuel & Hok).
        2:{ simpl. rewrite !slept_app, Ht, slept_app, Hinv, Hs, Hp. simpl.
            rewrite !app_nil_r. by rewrite <- replicate_S_end. }
        exists k. split; [done|]. split; [done|]. split; [done|].
        intros Hr1. destruct (Hok Hr1) as [Hk1|(Hdone & _)]; [by left|].
        unfold pending in *. simpl in *. congruence.
    + unfold ret at 1. rewrite while_pending_done by done.
      intros [= <- <-]. exists (passes s).
      rewrite Ht, slept_app, Hinv, Hs, app_nil_r.
      split; [done|]. split; [lia|]. split; [done|]. intros _. left. lia.
  - intros [= <- <-]. exists (passes s).
    rewrite Ht, slept_app, Hinv, Hs, app_nil_r.
    split; [done|]. split; [lia|]. done.
Qed.

(** X5. The pauses of a call are all of the configured interval, and there
    is exactly one between two consecutive passes: when the call returns,
    the number of pauses is the number of passes less one (none when no pass
    was needed); when it is still running, one per pass made; in every case
    at most one per pass. *)
Theorem sleeps_between_passes fuel ids ci (w : W) :
  let r := wait_for_jobs_completion batch_client time_passes fuel ids ci
             (initial w) in
  ∃ k, slept (out r.2) = replicate k ci ∧
       k ≤ passes r.2 ∧
       (r.1 = Ok () → k = passes r.2 - 1) ∧
       (r.1 = OutOfFuel → k = passes r.2).
Proof.
  intros r. destruct r as [r2 s2] eqn:Hrun. subst r. revert Hrun.
  unfold wait_for_jobs_completion, polling_phase, bind at 1 2.
  rewrite preamble_initial.
  match goal with |- context [while_pending _ _ _ _ _ ?s] =>
    destruct (while_pending batch_client time_passes fuel ids ci s)
      as [r1 s1] eqn:Hloop;
    destruct (while_pending_sleeps fuel ids ci s r1 s1 eq_refl Hloop)
      as (k & Hk & Hle & Hfuel & Hok)
  end.
  destruct r1 as [[]|e|].
  - unfold final_summary, bind at 1 2, print, emit.
    match goal with |- context [for_each _ _ ?s] =>
      destruct (for_each_calm (report_job batch_client) ids report_job_calm s)
        as (Hr & Hp & _ & t & Ht & Hs & _)
    end.
    cbn [out passes] in *. intros Hrun. rewrite Hrun in *.
    cbn [fst snd] in *. exists k.
    rewrite Ht, !slept_app, Hk, Hs. simpl. rewrite !app_nil_r.
    split; [done|]. split; [lia|]. split; [|by intros ->].
    intros _. destruct (Hok eq_refl) as [->|(_ & -> & ->)]; [lia|].
    simpl in *. lia.
  - intros [= <- <-]. exists k. cbn [fst snd]. by repeat split.
  - intros [= <- <-]. exists k. cbn [fst snd].
    split; [done|]. split; [done|]. split; [done|]. intros _. by apply Hfuel.
Qed.

(** ** How often the provider is asked *)



End More.

Lemma returns_only_when_all_observed_witness :
  scripted_wait 2 three_jobs default_check_interval (initial 0)
  = (Ok (), State 1 (list_to_set three_jobs) scripted_trace 2) ∧
  ∃ s1,
    polling_phase scripted_client scripted_clock 2 three_jobs
      default_check_interval (initial 0) = (Ok (), s1) ∧
    completed_jobs s1 = list_to_set three_jobs ∧
    ∀ job_id, job_id ∈ three_jobs → observed_terminal job_id (out s1).
Proof.
  split; [exact scripted_run|].
  exact (returns_only_when_all_observed scripted_client scripted_clock 2
           three_jobs default_check_interval 0 _ scripted_run).
Defined.

Lemma unreadable_answer_aborts_witness :
  EvDescribe "job-7" (inr []) ∈
    out (wait_for_jobs_completion empty_client scripted_clock 1 ["job-7"]
           default_check_interval (initial 0)).2 ∧
  answer_exn (inr []) = Some IndexError ∧
  let r := wait_for_jobs_completion empty_client scripted_clock 1 ["job-7"]
             default_check_interval (initial 0) in
  r.1 = Raise IndexError ∧
  ∃ t, out r.2 = t ++ [EvDescribe "job-7" (inr [])] ∧ unreadable t = [].
Proof.
  assert (EvDescribe "job-7" (inr []) ∈
            out (wait_for_jobs_completion empty_client scripted_clock 1
                   ["job-7"] default_check_interval (initial 0)).2) as Hin.
  { vm_compute. do 2 apply list_elem_of_further. apply list_elem_of_here. }
  split; [exact Hin|]. split; [reflexivity|].
  exact (unreadable_answer_aborts empty_client scripted_clock 1 ["job-7"]
           default_check_interval 0 "job-7" (inr []) IndexError Hin eq_refl).
Defined.


Lemma negative_interval_single_pass_witness :
  (-5 < 0)%Z ∧
  let r := scripted_wait 3 three_jobs (-5) (initial 0) in
  r.1 ≠ OutOfFuel ∧ passes r.2 ≤ 1 ∧ slept (out r.2) = [].
Proof.
  assert (-5 < 0)%Z as Hci by lia.
  split; [exact Hci|].
  exact (negative_interval_single_pass scripted_client scripted_clock 2
           three_jobs (-5) 0 Hci).
Defined.

End TrackerMore.

(** * Properties of the submission loop *)
Module SubmitProofs.
Import Lab1Submit.

#[local] Set Warnings "-clear-no-such-hyp".

Lemma requests_app t1 t2 : requests (t1 ++ t2) = requests t1 ++ requests t2.
Proof. apply bind_app. Qed.

Lemma accepted_app t1 t2 : accepted (t1 ++ t2) = accepted t1 ++ accepted t2.
Proof. apply bind_app. Qed.

Lemma refused_app t1 t2 : refused (t1 ++ t2) = refused t1 ++ refused t2.
Proof. apply bind_app. Qed.

(** ** Decimal digits *)

Lemma pretty_N_char_digit x :
  pretty_N_char x ∈ ["0"; "1"; "2"; "3"; "4"; "5"; "6"; "7"; "8"; "9"]%char.
Proof. unfold pretty_N_char. repeat case_match; set_solver. Qed.

Lemma pretty_N_go_digits x s : all_digits s → all_digits (pretty_N_go x s).
Proof.
  revert s. induction (N.lt_wf_0 x) as [x _ IH]; intros s Hs.
  destruct (decide (0 < x)%N) as [Hpos|Hzero].
  - rewrite pretty_N_go_step by done. apply IH.
    + apply N.div_lt; lia.
    + split; [apply pretty_N_char_digit|done].
  - replace x with 0%N by lia. by rewrite pretty_N_go_0.
Qed.

Lemma pretty_Z_digits (z : Z) : (0 ≤ z)%Z → all_digits (pretty z).
Proof.
  destruct z as [|p|p]; intros Hz; [..|lia].
  - simpl. split; [set_solver|done].
  - unfold pretty, pretty_Z, pretty, pretty_positive, pretty, pretty_N.
    case_decide; [lia|]. by apply pretty_N_go_digits.
Qed.

Lemma digit_not_dash c (s : string) :
  all_digits (String c s) → c ≠ "-"%char.
Proof.
  intros [Hc _] ->.
  repeat (apply elem_of_cons in Hc as [Hc|Hc]; [discriminate|]).
  by apply elem_of_nil in Hc.
Qed.

Lemma digits_dash d1 d2 r1 r2 :
  all_digits d1 → all_digits d2 →
  d1 +:+ String "-" r1 = d2 +:+ String "-" r2 → d1 = d2.
Proof.
  revert d2. induction d1 as [|c d1 IH]; intros [|c' d2] H1 H2 Heq;
    simpl in Heq.
  - done.
  - injection Heq as Hc _. symmetry in Hc. by apply digit_not_dash in H2.
  - injection Heq as Hc _. by apply digit_not_dash in H1.
  - injection Heq as -> Heq. f_equal.
    apply IH; [by destruct H1|by destruct H2|done].
Qed.

Lemma job_name_inj n m timestamp timestamp' :
  (0 ≤ n)%Z → (0 ≤ m)%Z →
  job_name n timestamp = job_name m timestamp' → n = m.
Proof.
  intros Hn Hm Heq. unfold job_name in Heq. simplify_eq/=.
  apply (inj pretty). eapply digits_dash; [..|done]; by apply pretty_Z_digits.
Qed.

Lemma batch_id_inj n m : batch_id n = batch_id m → n = m.
Proof. unfold batch_id. intros Heq. simplify_eq/=. by apply (inj pretty). Qed.

Lemma elem_of_zip_with_l {A B C} (f : A → B → C) l k x :
  x ∈ zip_with f l k → ∃ a b, a ∈ l ∧ x = f a b.
Proof.
  revert k. induction l as [|a l IH]; intros [|b k] Hin; simpl in Hin;
    try by apply elem_of_nil in Hin.
  apply elem_of_cons in Hin as [->|Hin].
  - exists a, b. split; [by left|done].
  - destruct (IH _ Hin) as (a' & b' & Ha & ->). exists a', b'.
    split; [by right|done].
Qed.

Lemma NoDup_zip_with_l {A B C} (f : A → B → C) (P : A → Prop) l k :
  (∀ a a' b b', P a → P a' → f a b = f a' b' → a = a') →
  Forall P l → NoDup l → NoDup (zip_with f l k).
Proof.
  intros Hinj Hall. revert k.
  induction l as [|a l IH]; intros [|b k] Hnd; simpl; try constructor.
  - apply NoDup_cons in Hnd as [Hnew _].
    intros (a' & b' & Ha' & Heq)%elem_of_zip_with_l.
    apply Forall_cons in Hall as [Ha Hl].
    apply Hinj in Heq; [congruence|done|].
    by eapply Forall_forall in Hl.
  - apply Forall_cons in Hall as [_ Hl]. apply NoDup_cons in Hnd as [_ Hnd].
    by apply IH.
Qed.

Section Facts.

Context {W : Type}.
Variable submit_job : W → request → (Lab1.exn + dict) * W.
Variable now : W → string * W.
Variable account_id : string.
Variables batch_count batch_size : Z.

#[local] Abbreviation submit_one :=
  (submit_one submit_job now account_id batch_count batch_size).
#[local] Abbreviation job_request :=
  (job_request account_id batch_count batch_size).

Lemma submit_one_spec n (s : state) r s' :
  submit_one n s = (r, s') →
  ∃ t timestamp,
    out s' = out s ++ t ∧
    requests t = [job_request n timestamp] ∧
    jobs s' = jobs s ++ accepted t ∧
    match r with
    | inr _ => refused t = [] ∧
               Forall (λ job, is_Some (job !! "jobId")) (accepted t)
    | inl e => (refused t = [e] ∧ ∃ t0 req, t = t0 ++ [EvSubmit req (inl e)]) ∨
               (refused t = [] ∧ ∃ key, e = Lab1.KeyError key)
    end.
Proof.
  unfold Lab1Submit.submit_one, bind, strftime_now, call_submit_job,
    append_job, getitem, print, ret, raise.
  destruct (now (world s)) as [timestamp w1]. simpl.
  destruct (submit_job w1 _) as [[e|response] w2]; simpl.
  { intros [= <- <-]. simpl. rewrite <- ?app_assoc. eexists _, timestamp.
    split; [reflexivity|]. split; [done|]. simpl. rewrite app_nil_r.
    split; [done|]. left. split; [done|].
    by exists [EvNow timestamp], (job_request n timestamp). }
  destruct (response !! "jobId") as [job_id|] eqn:Hid; simpl;
    [destruct (response !! "jobName") as [name|] eqn:Hname; simpl;
     [destruct (response !! "jobArn") as [arn|] eqn:Harn; simpl|]|];
    intros [= <- <-]; simpl; rewrite <- ?app_assoc; eexists _, timestamp;
    (split; [reflexivity|]); (split; [done|]); (split; [done|]);
    try (right; by eauto).
  split; [done|]. constructor; [by rewrite Hid|constructor].
Qed.

Lemma for_each_submit_spec l (s : state) r s' :
  for_each l submit_one s = (r, s') →
  ∃ t l1 l2 stamps,
    out s' = out s ++ t ∧
    l = l1 ++ l2 ∧
    length stamps = length l1 ∧
    requests t = zip_with job_request l1 stamps ∧
    jobs s' = jobs s ++ accepted t ∧
    match r with
    | inr _ => l2 = [] ∧ refused t = [] ∧
               Forall (λ job, is_Some (job !! "jobId")) (accepted t)
    | inl e => (refused t = [e] ∧ ∃ t0 req, t = t0 ++ [EvSubmit req (inl e)]) ∨
               (refused t = [] ∧ ∃ key, e = Lab1.KeyError key)
    end.
Proof.
  revert s. induction l as [|n l IH]; intros s; simpl.
  - intros [= <- <-]. exists [], [], [], []. rewrite !app_nil_r.
    repeat split; done.
  - unfold bind.
    destruct (submit_one n s) as [[e|[]] s1] eqn:Hone;
      apply submit_one_spec in Hone as (t1 & timestamp & Ht1 & Hq1 & Hj1 & Hr1).
    + intros [= <- <-]. exists t1, [n], l, [timestamp].
      repeat split; done.
    + intros Hrest.
      apply IH in Hrest as (t2 & l1 & l2 & stamps & Ht2 & -> & Hlen & Hq2 & Hj2 & Hr2).
      destruct Hr1 as [Hf1 Hid1].
      exists (t1 ++ t2), (n :: l1), l2, (timestamp :: stamps).
      rewrite Ht2, Ht1, Hj2, Hj1, requests_app, accepted_app, Hq1, Hq2.
      rewrite <- !app_assoc. simpl. rewrite Hlen.
      do 5 (split; [done|]).
      destruct r as [e|[]].
      * destruct Hr2 as [(Hf2 & t0 & req & ->)|(Hf2 & key & ->)].
        -- left. rewrite refused_app, Hf1, Hf2. split; [done|].
           exists (t1 ++ t0), req. by rewrite app_assoc.
        -- right. rewrite refused_app, Hf1, Hf2. eauto.
      * destruct Hr2 as (-> & Hf2 & Hid2). rewrite refused_app, Hf1, Hf2.
        split; [done|]. split; [done|]. by apply Forall_app.
Qed.

Lemma submissions_count t :
  length (requests t) = length (accepted t) + length (refused t).
Proof.
  induction t as [|[ts|req [e|response]|line] t IH]; simpl in *;
    rewrite ?length_app; simpl; lia.
Qed.

Lemma job_ids_total jobs :
  Forall (λ job : dict, is_Some (job !! "jobId")) jobs →
  ∃ ids, job_ids jobs = inr ids ∧
         Some <$> ids = (λ job : dict, job !! "jobId") <$> jobs.
Proof.
  induction 1 as [|job jobs [job_id Hid] _ (ids & Hids & Hmap)]; simpl.
  - by exists [].
  - rewrite Hid, Hids. exists (job_id :: ids). split; [done|].
    rewrite fmap_cons. f_equal. exact Hmap.
Qed.

(** X7. When the submission cell runs to its end, it has sent exactly one
    request per batch number 0, 1, ..., [batch_count - 1], in this order
    (none for a [batch_count] that is not positive), each named and
    parameterised by its number; [jobs] holds the responses in the same
    order; and the ids that the next cell extracts from [jobs] are the
    [jobId] of these responses, one per request. *)
Theorem submit_all (w : W) s' :
  submit_jobs submit_job now account_id batch_count batch_size (initial w)
    = (inr (), s') →
  ∃ stamps ids,
    length stamps = Z.to_nat batch_count ∧
    requests (out s') = zip_with job_request (seqZ 0 batch_count) stamps ∧
    submissions (out s') = zip (requests (out s')) (inr <$> jobs s') ∧
    length (jobs s') = Z.to_nat batch_count ∧
    job_ids (jobs s') = inr ids ∧
    Some <$> ids = (λ job : dict, job !! "jobId") <$> jobs s'.
Proof.
  unfold submit_jobs, bind, reset_jobs, initial. simpl.
  intros (t & l1 & l2 & stamps & Ht & Hl & Hlen & Hq & Hj & -> & Hf & Hid)
    %for_each_submit_spec.
  simpl in Ht, Hj. rewrite app_nil_r in Hl. subst l1 t.
  rewrite length_seqZ in Hlen.
  destruct (job_ids_total _ Hid) as (ids & Hids & Hmap).
  exists stamps, ids. rewrite Hj. split; [done|]. split; [done|].
  split; [|split; [|done]].
  - clear -Hf. induction (out s') as [|[ts|req [e|response]|line] t IH];
      simpl in *; try done; try by apply IH.
    f_equal. by apply IH.
  - pose proof (submissions_count (out s')) as Hcount.
    rewrite Hf, Hq, length_zip_with, length_seqZ in Hcount. simpl in Hcount.
    lia.
Qed.

(** X8. However the submission cell ends, [jobs] holds exactly the
    responses of the accepted submissions, in order: a job that was
    submitted is never dropped, also when a later submission fails.  No
    more requests are sent than [batch_count]; a refused submission is the
    last event of the trace and its exception ends the cell, so nothing is
    submitted after a refusal. *)
Theorem submit_keeps_accepted (w : W) :
  let r := submit_jobs submit_job now account_id batch_count batch_size
             (initial w) in
  jobs r.2 = accepted (out r.2) ∧
  length (requests (out r.2)) ≤ Z.to_nat batch_count ∧
  ∀ e, e ∈ refused (out r.2) →
       r.1 = inl e ∧ ∃ t req, out r.2 = t ++ [EvSubmit req (inl e)].
Proof.
  intros r. destruct r as [r1 s1] eqn:Hrun. subst r. revert Hrun.
  unfold submit_jobs, bind, reset_jobs, initial. simpl.
  intros (t & l1 & l2 & stamps & Ht & Hl & Hlen & Hq & Hj & Hr)
    %for_each_submit_spec.
  simpl in *. subst t. split; [done|]. split.
  - rewrite Hq, length_zip_with, Hlen.
    pose proof (length_seqZ 0 batch_count) as Hseq.
    rewrite Hl, length_app in Hseq. lia.
  - intros e He. destruct r1 as [e'|[]].
    + destruct Hr as [(Hf & t0 & req & Hlast)|(Hf & _)];
        rewrite Hf in He; [|by apply elem_of_nil in He].
      apply list_elem_of_singleton in He as ->. eauto.
    + destruct Hr as (_ & Hf & _). rewrite Hf in He.
      by apply elem_of_nil in He.
Qed.

(** X9. The job names of one run of the submission cell are pairwise
    distinct whatever the clock reads, also when every timestamp is the
    same: the batch number alone tells them apart.  So are the [batchId]
    parameters. *)
Theorem job_names_distinct (w : W) :
  let r := submit_jobs submit_job now account_id batch_count batch_size
             (initial w) in
  NoDup (jobName <$> requests (out r.2)) ∧
  NoDup ((λ req, parameters req !! "batchId") <$> requests (out r.2)).
Proof.
  intros r. destruct r as [r1 s1] eqn:Hrun. subst r. revert Hrun.
  unfold submit_jobs, bind, reset_jobs, initial. simpl.
  intros (t & l1 & l2 & stamps & Ht & Hl & Hlen & Hq & _)
    %for_each_submit_spec.
  simpl in *. subst t. rewrite Hq.
  assert (NoDup l1) as Hnd.
  { pose proof (NoDup_seqZ 0 batch_count) as Hseq. rewrite Hl in Hseq.
    by apply NoDup_app in Hseq as [? _]. }
  assert (Forall (λ n, 0 ≤ n)%Z l1) as Hpos.
  { apply Forall_forall. intros n Hn.
    assert (n ∈ seqZ 0 batch_count) as Hin by (rewrite Hl; set_solver).
    apply elem_of_seqZ in Hin. lia. }
  split.
  - replace (jobName <$> zip_with job_request l1 stamps)
      with (zip_with job_name l1 stamps).
    2:{ clear. revert stamps. induction l1 as [|n l1 IH]; intros [|ts stamps];
          simpl; try done. f_equal. apply IH. }
    eapply (NoDup_zip_with_l _ (λ n, 0 ≤ n)%Z); [|done..].
    intros n m ts ts' Hn Hm. by apply job_name_inj.
  - replace ((λ req, parameters req !! "batchId")
               <$> zip_with job_request l1 stamps)
      with (zip_with (λ n (_ : string), Some (batch_id n)) l1 stamps).
    2:{ clear. revert stamps. induction l1 as [|n l1 IH]; intros [|ts stamps];
          simpl; try done. f_equal. apply IH. }
    eapply (NoDup_zip_with_l _ (λ n, 0 ≤ n)%Z); [|done..].
    intros n m ? ? ? ? Heq. apply batch_id_inj. congruence.
Qed.

End Facts.

Lemma submit_all_witness :
  submit_jobs scripted_submit scripted_now "123456789012" 2 2 (initial 0)
  = (inr (),
     (submit_jobs scripted_submit scripted_now "123456789012" 2 2
        (initial 0)).2) ∧
  ∃ stamps ids,
    length stamps = Z.to_nat 2 ∧
    requests (out (submit_jobs scripted_submit scripted_now "123456789012"
                     2 2 (initial 0)).2)
    = zip_with (job_request "123456789012" 2 2) (seqZ 0 2) stamps ∧
    submissions (out (submit_jobs scripted_submit scripted_now "123456789012"
                        2 2 (initial 0)).2)
    = zip (requests (out (submit_jobs scripted_submit scripted_now
                            "123456789012" 2 2 (initial 0)).2))
          (inr <$> jobs (submit_jobs scripted_submit scripted_now
                           "123456789012" 2 2 (initial 0)).2) ∧
    length (jobs (submit_jobs scripted_submit scripted_now "123456789012"
                    2 2 (initial 0)).2) = Z.to_nat 2 ∧
    job_ids (jobs (submit_jobs scripted_submit scripted_now "123456789012"
                     2 2 (initial 0)).2) = inr ids ∧
    Some <$> ids
    = (λ job : dict, job !! "jobId")
        <$> jobs (submit_jobs scripted_submit scripted_now "123456789012"
                    2 2 (initial 0)).2.
Proof.
  assert (submit_jobs scripted_submit scripted_now "123456789012" 2 2
            (initial 0)
          = (inr (),
             (submit_jobs scripted_submit scripted_now "123456789012" 2 2
                (initial 0)).2)) as Hrun by (vm_compute; reflexivity).
  split; [exact Hrun|].
  exact (submit_all scripted_submit scripted_now "123456789012" 2 2 0 _ Hrun).
Defined.

End SubmitProofs.

(** * Further properties of the inference script *)
Module InferenceMore.
Import Lab2 InferenceProofs.

Section Facts.

Context {Tensor Output Device : Type}.
Variable json_loads : string → exn + json.
Variable repr : json → string.
Variable tensor_to : Tensor → Device → exn + Tensor.

Lemma eq_str_true mode s : eq_str mode s = true → mode = JStr s.
Proof.
  destruct mode; simpl; try discriminate.
  intros Heq%bool_decide_eq_true. by subst.
Qed.

(** X10. When [predict_fn] returns, the mode it returns is the mode it was
    given and is the string "logits" or the string "embeddings"; the
    sequence was tokenized, the tokens were moved to the device, and the
    model was called exactly once, on the moved tokens, with
    [output_hidden_states=True] exactly for "embeddings"; the output is the
    one of that call. *)
Theorem predict_fn_returns sequence mode
    (a : artifacts (Tensor:=Tensor) (Output:=Output) (Device:=Device))
    t output mode' :
  predict_fn repr tensor_to (sequence, mode) a = (t, inr (output, mode')) →
  mode' = mode ∧
  (mode = JStr "logits" ∨ mode = JStr "embeddings") ∧
  ∃ x y,
    tokenizer_encode a sequence = inr x ∧
    tensor_to x (device a) = inr y ∧
    model a y (eq_str mode "embeddings") = inr output ∧
    t = [EvLog "predict_fn: Running inference"; EvEncode sequence;
         EvToDevice x; EvModel y (eq_str mode "embeddings")].
Proof.
  destruct a as [model encode dev].
  unfold predict_fn, bind, call, logging_info, raise, ret. simpl.
  destruct (encode sequence) as [e|x] eqn:Hx; simpl; [discriminate|].
  destruct (tensor_to x dev) as [e|y] eqn:Hy; simpl; [discriminate|].
  destruct (eq_str mode "logits") eqn:Hl.
  - apply eq_str_true in Hl as ->. simpl.
    destruct (model y false) as [e|out] eqn:Hm; simpl; [discriminate|].
    intros [= <- <- <-]. split; [done|]. split; [by left|].
    by exists x, y.
  - destruct (eq_str mode "embeddings") eqn:He; [|discriminate].
    apply eq_str_true in He as ->. simpl.
    destruct (model y true) as [e|out] eqn:Hm; simpl; [discriminate|].
    intros [= <- <- <-]. split; [done|]. split; [by right|].
    by exists x, y.
Qed.

(** X11. [input_fn] returns exactly when the content type is
    "application/json" and the body parses to an object with a ["sequence"]
    member; it then returns that sequence and the ["mode"] member as it is,
    whatever its value (a mode that is present is not checked here, and a
    JSON null is not replaced by the default), or "logits" when there is no
    such member.  In every other case it raises: [ValueError] for another
    content type, the parser's exception, [KeyError] for a missing
    sequence, [TypeError] for a body that is not an object. *)
Theorem input_fn_returns body content_type sequence mode :
  (input_fn (Tensor:=Tensor) json_loads body content_type).2
    = inr (sequence, mode)
  ↔ content_type = "application/json" ∧
    ∃ members,
      json_loads body = inr (JObj members) ∧
      members !! "sequence" = Some sequence ∧
      mode = default (JStr "logits") (members !! "mode").
Proof.
  unfold input_fn, bind, lift, logging_info, getitem, get, raise, ret. simpl.
  case_bool_decide as Hct; simpl.
  2:{ split; [discriminate|]. by intros [? _]. }
  destruct (json_loads body) as [e|v]; simpl.
  { split; [discriminate|]. by intros (_ & members & [=] & _). }
  destruct v as [| | | | | |members]; simpl;
    try (split; [discriminate|]; by intros (_ & members & [=] & _)).
  destruct (members !! "sequence") as [seq|] eqn:Hseq; simpl.
  - split.
    + intros [= <- <-]. split; [done|]. by exists members.
    + intros (_ & members' & [= <-] & Hseq' & ->). congruence.
  - split; [discriminate|].
    intros (_ & members' & [= <-] & Hseq' & _). congruence.
Qed.

End Facts.

Lemma predict_fn_returns_witness :
  predict_fn stub_repr stub_to (JStr "MSVVGIDLGT", JStr "embeddings")
    stub_artifacts
  = ([EvLog "predict_fn: Running inference"; EvEncode (JStr "MSVVGIDLGT");
      EvToDevice [1; 2; 3]%Z; EvModel [1; 2; 3]%Z true],
     inr ("hidden", JStr "embeddings")) ∧
  JStr "embeddings" = JStr "embeddings" ∧
  (JStr "embeddings" = JStr "logits" ∨ JStr "embeddings" = JStr "embeddings") ∧
  ∃ x y,
    tokenizer_encode stub_artifacts (JStr "MSVVGIDLGT") = inr x ∧
    stub_to x (device stub_artifacts) = inr y ∧
    model stub_artifacts y (eq_str (JStr "embeddings") "embeddings")
    = inr "hidden" ∧
    [EvLog "predict_fn: Running inference"; EvEncode (JStr "MSVVGIDLGT");
     EvToDevice [1; 2; 3]%Z; EvModel [1; 2; 3]%Z true]
    = [EvLog "predict_fn: Running inference"; EvEncode (JStr "MSVVGIDLGT");
       EvToDevice x; EvModel y (eq_str (JStr "embeddings") "embeddings")].
Proof.
  assert (predict_fn stub_repr stub_to (JStr "MSVVGIDLGT", JStr "embeddings")
            stub_artifacts
          = ([EvLog "predict_fn: Running inference";
              EvEncode (JStr "MSVVGIDLGT");
              EvToDevice [1; 2; 3]%Z; EvModel [1; 2; 3]%Z true],
             inr ("hidden", JStr "embeddings"))) as Hrun by reflexivity.
  split; [exact Hrun|].
  exact (predict_fn_returns stub_repr stub_to (JStr "MSVVGIDLGT")
           (JStr "embeddings") stub_artifacts _ _ _ Hrun).
Defined.

Lemma input_fn_returns_witness :
  ("application/json" = "application/json" ∧
   ∃ members,
     stub_loads "{}" = inr (JObj members) ∧
     members !! "sequence" = Some (JStr "MSVVGIDLGT") ∧
     JStr "logits" = default (JStr "logits") (members !! "mode")) ∧
  (input_fn (Tensor:=list Z) stub_loads "{}" "application/json").2
  = inr (JStr "MSVVGIDLGT", JStr "logits").
Proof.
  assert ("application/json" = "application/json" ∧
          ∃ members,
            stub_loads "{}" = inr (JObj members) ∧
            members !! "sequence" = Some (JStr "MSVVGIDLGT") ∧
            JStr "logits" = default (JStr "logits") (members !! "mode"))
    as Hbody.
  { split; [reflexivity|].
    exists {["sequence" := JStr "MSVVGIDLGT"]}.
    split; [reflexivity|]. split; vm_compute; reflexivity. }
  split; [exact Hbody|].
  exact (proj2 (input_fn_returns (Tensor:=list Z) stub_loads "{}"
                  "application/json" (JStr "MSVVGIDLGT") (JStr "logits"))
           Hbody).
Defined.

End InferenceMore.

(** * Properties of [output_fn] *)
Module ServingProofs.
Import Lab2 Lab2Serving InferenceProofs.

Section Facts.

Context {Tensor Output Device : Type}.
Variable logits_attr : Output → option (value (Tensor:=Tensor)).
Variable hidden_states_attr : Output → option (value (Tensor:=Tensor)).
Variable type_name : Output → string.
Variable tensor_last : Tensor → error + Tensor.
Variable tolist : Tensor → json.
Variable json_dumps : json → string.
Variable repr : json → string.
Variable tensor_to : Tensor → Device → exn + Tensor.

#[local] Abbreviation output_fn :=
  (output_fn logits_attr hidden_states_attr type_name tensor_last tolist
     json_dumps repr).

Lemma eq_str_spec mode s : eq_str mode s = true ↔ mode = JStr s.
Proof.
  split.
  - destruct mode; simpl; try discriminate.
    intros Heq%bool_decide_eq_true. by subst.
  - intros ->. simpl. by apply bool_decide_eq_true.
Qed.

Lemma value_tolist_inr v l :
  value_tolist tolist v = inr l ↔ ∃ t, v = VTensor t ∧ l = tolist t.
Proof.
  destruct v as [|t|items]; simpl; split; try discriminate;
    try (by intros (t' & [=] & _)).
  - intros [= <-]. by exists t.
  - intros (t' & [= <-] & ->). done.
Qed.

(** X12. [output_fn] returns exactly when the accept type is
    "application/json", the mode is the string "logits" or "embeddings",
    and the attribute it reads is a tensor: [output.logits] for "logits",
    the last element of [output.hidden_states] for "embeddings".  It then
    returns the accept type with the serialization of an object whose only
    key is the mode and whose value is the list form of that tensor. *)
Theorem output_fn_returns output mode accept body accept' :
  (output_fn (output, mode) accept).2 = inr (body, accept')
  ↔ accept = "application/json" ∧ accept' = accept ∧
    ∃ key t,
      mode = JStr key ∧
      body = json_dumps (JObj {[key := tolist t]}) ∧
      ((key = "logits" ∧ logits_attr output = Some (VTensor t)) ∨
       (key = "embeddings" ∧
        ∃ v, hidden_states_attr output = Some v ∧
             index_last tensor_last v = inr (VTensor t))).
Proof.
  unfold Lab2Serving.output_fn. simpl.
  case_bool_decide as Haccept.
  2:{ split; [discriminate|]. by intros [? _]. }
  unfold select_result.
  destruct (eq_str mode "logits") eqn:Hl.
  { apply eq_str_spec in Hl as ->. simpl.
    destruct (logits_attr output) as [v|] eqn:Hv.
    2:{ split; [discriminate|].
        intros (_ & _ & key & t & [= <-] & _ & [[_ [=]]|[[=] _]]). }
    destruct (value_tolist tolist v) as [e|l] eqn:Hlist.
    - split; [discriminate|].
      intros (_ & _ & key & t & [= <-] & _ & [[_ [= ->]]|[[=] _]]).
      discriminate.
    - apply value_tolist_inr in Hlist as (t & -> & ->). split.
      + intros [= <- <-]. do 2 (split; [done|]). exists "logits", t.
        split; [done|]. split; [done|]. by left.
      + intros (_ & -> & key & t' & [= <-] & -> & [[_ [= ->]]|[[=] _]]).
        done. }
  destruct (eq_str mode "embeddings") eqn:He.
  { apply eq_str_spec in He as ->. simpl.
    destruct (hidden_states_attr output) as [v|] eqn:Hv.
    2:{ split; [discriminate|].
        intros (_ & _ & key & t & [= <-] & _ & [[[=] _]|[_ (v & [=] & _)]]). }
    destruct (index_last tensor_last v) as [e|result] eqn:Hlast.
    { split; [discriminate|].
      intros (_ & _ & key & t & [= <-] & _ & [[[=] _]|[_ (v' & [= <-] & Hv')]]).
      congruence. }
    destruct (value_tolist tolist result) as [e|l] eqn:Hlist.
    - split; [discriminate|].
      intros (_ & _ & key & t & [= <-] & _ & [[[=] _]|[_ (v' & [= <-] & Hv')]]).
      rewrite Hlast in Hv'. injection Hv' as ->. discriminate.
    - apply value_tolist_inr in Hlist as (t & -> & ->). split.
      + intros [= <- <-]. do 2 (split; [done|]). exists "embeddings", t.
        split; [done|]. split; [done|]. right. split; [done|]. by exists v.
      + intros (_ & -> & key & t' & [= <-] & -> &
                [[[=] _]|[_ (v' & [= <-] & Hv')]]).
        rewrite Hlast in Hv'. by injection Hv' as ->. }
  split; [discriminate|].
  intros (_ & _ & key & t & -> & _ & [[-> _]|[-> _]]).
  - by rewrite (proj2 (eq_str_spec _ _) eq_refl) in Hl.
  - by rewrite (proj2 (eq_str_spec _ _) eq_refl) in He.
Qed.

End Facts.

End ServingProofs.
